(** * Serializer: a shallow embedding of [Serializer.h]

    The header generates, per record type, a constant table of field
    descriptors ([struct_name##_meta]), an encoder [Serialize_##struct_name],
    a lookup [Serializer_Get_##struct_name##_Meta_Field_By_ID] and a decoder
    [Deserialize_##struct_name].  The functions below are those generated
    functions, parameterised by what the macros are parameterised by: the
    descriptor table, [sizeof(struct_name)] and the stream id.

    Memory is modelled as lists of bytes addressed by a natural offset; an
    access that leaves the object it points into is undefined behaviour in C
    and is [None] here.  Integers are stored in the representation of the
    usual little-endian targets: [uint32_t] in four bytes, [uint16_t] in two,
    least significant byte first, and [Serializer_Field_Meta_t] in eight
    bytes without padding. *)

From Stdlib Require Import ZArith Lia.
From Stdlib Require Import Strings.Byte.
From stdpp Require Import base option list.

(** ** Integers and their object representation *)

Definition wrap (bits : Z) (v : Z) : Z := (v mod 2 ^ bits)%Z.

Definition Z_of_byte (b : byte) : Z := Z.of_N (Byte.to_N b).

Definition byte_of_Z (v : Z) : byte :=
  default x00 (Byte.of_N (Z.to_N (v mod 256))).

(** [to_bytes n v]: the [n] bytes that hold the unsigned integer [v]. *)
Fixpoint to_bytes (n : nat) (v : Z) : list byte :=
  match n with
  | O => []
  | S n' => byte_of_Z v :: to_bytes n' (v / 256)
  end.

(** [of_bytes bs]: the unsigned integer held in the bytes [bs]. *)
Fixpoint of_bytes (bs : list byte) : Z :=
  match bs with
  | [] => 0%Z
  | b :: bs' => (Z_of_byte b + 256 * of_bytes bs')%Z
  end.

(** ** [Serializer_Field_Meta_t] and [Deserializer_Error_t] *)

Record Serializer_Field_Meta_t : Type := {
  type_id : Z;   (* uint32_t *)
  offset : Z;    (* uint16_t *)
  size : Z       (* uint16_t *)
}.

Inductive Deserializer_Error_t : Type :=
| SERIALIZER_DESERIALIZER_ERROR_NONE
| SERIALIZER_DESERIALIZER_ERROR_STREAM_ID_MISMATCH.

Global Instance Serializer_Field_Meta_eq_dec : EqDecision Serializer_Field_Meta_t.
Proof. solve_decision. Defined.

(** [sizeof(Serializer_Field_Meta_t)] *)
Definition sizeof_meta : nat := 8.

(** The object representation of one descriptor and of an array of them. *)
Definition meta_bytes (m : Serializer_Field_Meta_t) : list byte :=
  to_bytes 4 (type_id m) ++ to_bytes 2 (offset m) ++ to_bytes 2 (size m).

Definition meta_of_bytes (raw : list byte) : Serializer_Field_Meta_t :=
  {| type_id := of_bytes (take 4 raw);
     offset := of_bytes (take 2 (drop 4 raw));
     size := of_bytes (take 2 (drop 6 raw)) |}.

Definition meta_array_bytes (meta : list Serializer_Field_Meta_t) : list byte :=
  concat (map meta_bytes meta).

(** ** The X-macro field list and [SERIALIZER_CREATE_META_IMPL] *)

Inductive Serializer_Enable : Type := ENABLE | DISABLE.

(** One [X(enable, id, type, name)] entry; [field_offsetof] and
    [field_sizeof] stand for [offsetof(SERIALIZER_STRUCT_NAME, name)] and
    [sizeof(type)], which the compiler supplies. *)
Record Struct_Field : Type := {
  field_enable : Serializer_Enable;
  field_id : Z;
  field_offsetof : Z;
  field_sizeof : Z
}.

(** [SERIALIZER_META_FIELD] pastes [enable] onto its name and so expands to
    [SERIALIZER_META_FIELD_ENABLE], an initialiser [{id, offsetof, sizeof},]
    whose values are converted to the members' types, or to
    [SERIALIZER_META_FIELD_DISABLE], nothing. *)
Definition SERIALIZER_META_FIELD_ENABLE (f : Struct_Field)
  : list Serializer_Field_Meta_t :=
  [ {| type_id := wrap 32 (field_id f);
       offset := wrap 16 (field_offsetof f);
       size := wrap 16 (field_sizeof f) |} ].

Definition SERIALIZER_META_FIELD_DISABLE (f : Struct_Field)
  : list Serializer_Field_Meta_t := [].

Definition SERIALIZER_META_FIELD (f : Struct_Field) : list Serializer_Field_Meta_t :=
  match field_enable f with
  | ENABLE => SERIALIZER_META_FIELD_ENABLE f
  | DISABLE => SERIALIZER_META_FIELD_DISABLE f
  end.

Definition SERIALIZER_CREATE_META_IMPL (struct_fields : list Struct_Field)
  : list Serializer_Field_Meta_t :=
  flat_map SERIALIZER_META_FIELD struct_fields.

(** What one instantiation [SERIALIZER_CREATE_STRUCT(struct_name,
    struct_fields, stream_id)] fixes. *)
Record Serializer_Struct : Type := {
  struct_meta : list Serializer_Field_Meta_t;   (* struct_name##_meta *)
  sizeof_struct : nat;                          (* sizeof(struct_name) *)
  stream_id : Z
}.

(** ** [memcpy] *)

(** [memcpy(dst + d, src + s, n)]; defined when both ranges lie inside their
    objects. *)
Definition memcpy (dst : list byte) (d : nat) (src : list byte) (s n : nat)
  : option (list byte) :=
  if decide (d + n ≤ length dst ∧ s + n ≤ length src)
  then Some (list_inserts d (take n (drop s src)) dst)
  else None.

(** [memcpy(&local, src + s, n)] into a local variable of [n] bytes. *)
Definition load (src : list byte) (s n : nat) : option (list byte) :=
  if decide (s + n ≤ length src) then Some (take n (drop s src)) else None.

(** ** [Serialize_##struct_name] *)

Definition Serialize (T : Serializer_Struct) (buffer obj : list byte)
  : option (list byte) :=
  let meta_size := wrap 32 (Z.of_nat (length (struct_meta T))) in
  let stream_id_le := wrap 32 (stream_id T) in
  let sizeof_table := sizeof_meta * length (struct_meta T) in
  buffer ← memcpy buffer 0 (to_bytes 4 stream_id_le) 0 4;
  buffer ← memcpy buffer 4 (to_bytes 4 meta_size) 0 4;
  buffer ← memcpy buffer 8 (meta_array_bytes (struct_meta T)) 0 sizeof_table;
  memcpy buffer (8 + sizeof_table) obj 0 (sizeof_struct T).

(** ** [Serializer_Get_##struct_name##_Meta_Field_By_ID] *)

(** The scan [for (i = 0; i < meta_size; i++)] over the entries it visits. *)
Fixpoint meta_scan (id : Z) (entries : list Serializer_Field_Meta_t)
  : option Serializer_Field_Meta_t :=
  match entries with
  | [] => None
  | m :: rest => if decide (type_id m = id) then Some m else meta_scan id rest
  end.

Definition Serializer_Get_Meta_Field_By_ID (T : Serializer_Struct) (id : Z)
  : option Serializer_Field_Meta_t :=
  let meta_size := wrap 32 (Z.of_nat (length (struct_meta T))) in
  meta_scan id (take (Z.to_nat meta_size) (struct_meta T)).

(** ** [Deserialize_##struct_name] *)

(** The body of the loop after [received_meta_field] has been read: copy the
    field if the local table knows its id. *)
Definition Deserialize_field (T : Serializer_Struct) (buffer : list byte)
    (received_obj_ptr : nat) (received_meta_field : Serializer_Field_Meta_t)
    (obj : list byte) : option (list byte) :=
  match Serializer_Get_Meta_Field_By_ID T (type_id received_meta_field) with
  | Some our_meta_field =>
      memcpy obj (Z.to_nat (offset our_meta_field))
             buffer (received_obj_ptr + Z.to_nat (offset received_meta_field))
             (Z.to_nat (size our_meta_field))
  | None => Some obj
  end.

(** The loop, by the number of iterations left. *)
Fixpoint Deserialize_loop (T : Serializer_Struct) (buffer : list byte)
    (received_obj_ptr : nat) (iterations : nat) (meta_field_ptr : nat)
    (obj : list byte) : option (list byte) :=
  match iterations with
  | O => Some obj
  | S iterations' =>
      raw ← load buffer meta_field_ptr sizeof_meta;
      obj ← Deserialize_field T buffer received_obj_ptr (meta_of_bytes raw) obj;
      Deserialize_loop T buffer received_obj_ptr iterations'
                       (meta_field_ptr + sizeof_meta) obj
  end.

Definition Deserialize (T : Serializer_Struct) (buffer obj : list byte)
  : option (Deserializer_Error_t * list byte) :=
  raw ← load buffer 0 4;
  let received_stream_id := of_bytes raw in
  if decide (received_stream_id ≠ stream_id T)
  then Some (SERIALIZER_DESERIALIZER_ERROR_STREAM_ID_MISMATCH, obj)
  else
    raw ← load buffer 4 4;
    let received_meta_size := Z.to_nat (of_bytes raw) in
    let meta_field_ptr := 8 in
    let received_obj_ptr := 8 + sizeof_meta * received_meta_size in
    obj ← Deserialize_loop T buffer received_obj_ptr received_meta_size
                           meta_field_ptr obj;
    Some (SERIALIZER_DESERIALIZER_ERROR_NONE, obj).

(** ** The example of [example.c] *)

Definition STREAM_1_FEILDS : list Struct_Field :=
  [ {| field_enable := ENABLE; field_id := 1; field_offsetof := 0; field_sizeof := 4 |};
    {| field_enable := DISABLE; field_id := 2; field_offsetof := 0; field_sizeof := 4 |};
    {| field_enable := ENABLE; field_id := 3; field_offsetof := 4; field_sizeof := 20 |} ].

Definition Stream1_Struct_t : Serializer_Struct :=
  {| struct_meta := SERIALIZER_CREATE_META_IMPL STREAM_1_FEILDS;
     sizeof_struct := 24;
     stream_id := 1 |}.

Definition hello_world : list byte :=
  [x48; x65; x6c; x6c; x6f; x2c; x20; x57; x6f; x72; x6c; x64; x21].

Definition obj1 : list byte :=
  to_bytes 4 42 ++ hello_world ++ replicate 7 x00.

(** The table-driven form of the loop: the received descriptors already
    parsed, the payload addressed from its own start. *)
Fixpoint Deserialize_fields (T : Serializer_Struct) (payload : list byte)
    (received : list Serializer_Field_Meta_t) (obj : list byte)
  : option (list byte) :=
  match received with
  | [] => Some obj
  | d :: rest =>
      obj ← Deserialize_field T payload 0 d obj;
      Deserialize_fields T payload rest obj
  end.

(** The bytes of a frame: stream id, entry count, meta table, payload. *)
Definition frame_bytes (sid : Z) (table : list Serializer_Field_Meta_t)
    (payload : list byte) : list byte :=
  to_bytes 4 sid ++ to_bytes 4 (Z.of_nat (length table)) ++
  meta_array_bytes table ++ payload.

(** The wire format in the words of the format description: every integer
    little-endian, a descriptor as id ([u32]), offset ([u16]), size ([u16]). *)
Definition little_endian (n : nat) (v : Z) : list byte :=
  (λ k, byte_of_Z (Z.land (Z.shiftr v (8 * Z.of_nat k)) 255)) <$> seq 0 n.

Definition wire_descriptor (m : Serializer_Field_Meta_t) : list byte :=
  little_endian 4 (type_id m) ++ little_endian 2 (offset m) ++
  little_endian 2 (size m).

Definition wire_frame (sid : Z) (table : list Serializer_Field_Meta_t)
    (payload : list byte) : list byte :=
  little_endian 4 sid ++ little_endian 4 (Z.of_nat (length table)) ++
  concat (wire_descriptor <$> table) ++ payload.

(** [8 + 8 * field_count + record_size] *)
Definition frame_length (T : Serializer_Struct) : nat :=
  8 + sizeof_meta * length (struct_meta T) + sizeof_struct T.

(** ** Predicates on descriptors and tables *)

(** The members hold values of their types. *)
Definition meta_in_range (m : Serializer_Field_Meta_t) : Prop :=
  (0 ≤ type_id m < 2 ^ 32)%Z ∧ (0 ≤ offset m < 2 ^ 16)%Z ∧ (0 ≤ size m < 2 ^ 16)%Z.

(** Byte index [i] lies in the extent [offset, offset + size) of [m]. *)
Definition in_field (m : Serializer_Field_Meta_t) (i : nat) : Prop :=
  Z.to_nat (offset m) ≤ i < Z.to_nat (offset m) + Z.to_nat (size m).

(** The bytes of an object at the extent of [m]. *)
Definition field_bytes (m : Serializer_Field_Meta_t) (obj : list byte) : list byte :=
  take (Z.to_nat (size m)) (drop (Z.to_nat (offset m)) obj).

(** The extent of [m] lies inside an object of [n] bytes. *)
Definition field_within (n : nat) (m : Serializer_Field_Meta_t) : Prop :=
  Z.to_nat (offset m) + Z.to_nat (size m) ≤ n.

Definition fields_disjoint (m1 m2 : Serializer_Field_Meta_t) : Prop :=
  Z.to_nat (offset m1) + Z.to_nat (size m1) ≤ Z.to_nat (offset m2) ∨
  Z.to_nat (offset m2) + Z.to_nat (size m2) ≤ Z.to_nat (offset m1).

(** Distinct members of a struct occupy disjoint extents. *)
Fixpoint meta_disjoint (meta : list Serializer_Field_Meta_t) : Prop :=
  match meta with
  | [] => True
  | m :: rest => Forall (fields_disjoint m) rest ∧ meta_disjoint rest
  end.

Definition meta_ids (meta : list Serializer_Field_Meta_t) : list Z :=
  type_id <$> meta.

(** Some descriptor of the table covers byte [i]. *)
Definition covered (meta : list Serializer_Field_Meta_t) (i : nat) : Prop :=
  Exists (λ m, in_field m i) meta.

(** What a copy capped at the smaller of the two declared sizes would leave
    in the output record. *)
Definition copy_min_size (buffer : list byte) (received_obj_ptr : nat)
    (received our : Serializer_Field_Meta_t) (obj : list byte) : list byte :=
  list_inserts (Z.to_nat (offset our))
    (take (Z.to_nat (size received) `min` Z.to_nat (size our))
          (drop (received_obj_ptr + Z.to_nat (offset received)) buffer))
    obj.

(** ** Further instantiations *)

(** A second version of [Stream1_Struct_t] with one more field at the end. *)
Definition STREAM_1B_FEILDS : list Struct_Field :=
  [ {| field_enable := ENABLE; field_id := 1; field_offsetof := 0; field_sizeof := 4 |};
    {| field_enable := ENABLE; field_id := 3; field_offsetof := 4; field_sizeof := 20 |};
    {| field_enable := ENABLE; field_id := 4; field_offsetof := 24; field_sizeof := 2 |} ].

Definition Stream1B_Struct_t : Serializer_Struct :=
  {| struct_meta := SERIALIZER_CREATE_META_IMPL STREAM_1B_FEILDS;
     sizeof_struct := 26;
     stream_id := 1 |}.

Definition obj1b : list byte := obj1 ++ [x07; x08].

(** A sender whose field 1 is two bytes wide and a receiver whose field 1 is
    four bytes wide, on the same stream. *)
Definition NARROW_FEILDS : list Struct_Field :=
  [ {| field_enable := ENABLE; field_id := 1; field_offsetof := 0; field_sizeof := 2 |};
    {| field_enable := ENABLE; field_id := 2; field_offsetof := 2; field_sizeof := 2 |} ].

Definition Narrow_Struct_t : Serializer_Struct :=
  {| struct_meta := SERIALIZER_CREATE_META_IMPL NARROW_FEILDS;
     sizeof_struct := 4;
     stream_id := 7 |}.

Definition WIDE_FEILDS : list Struct_Field :=
  [ {| field_enable := ENABLE; field_id := 1; field_offsetof := 0; field_sizeof := 4 |} ].

Definition Wide_Struct_t : Serializer_Struct :=
  {| struct_meta := SERIALIZER_CREATE_META_IMPL WIDE_FEILDS;
     sizeof_struct := 4;
     stream_id := 7 |}.

Definition narrow_obj : list byte := [xaa; xbb; xcc; xdd].

(** Two enabled fields declared with the same id. *)
Definition DUPLICATE_ID_FEILDS : list Struct_Field :=
  [ {| field_enable := ENABLE; field_id := 1; field_offsetof := 0; field_sizeof := 4 |};
    {| field_enable := ENABLE; field_id := 1; field_offsetof := 4; field_sizeof := 4 |} ].

Definition Duplicate_Struct_t : Serializer_Struct :=
  {| struct_meta := SERIALIZER_CREATE_META_IMPL DUPLICATE_ID_FEILDS;
     sizeof_struct := 8;
     stream_id := 9 |}.

Definition duplicate_obj : list byte :=
  [x01; x02; x03; x04; x05; x06; x07; x08].

Definition narrow_field1 : Serializer_Field_Meta_t :=
  {| type_id := 1; offset := 0; size := 2 |}.

Definition wide_field1 : Serializer_Field_Meta_t :=
  {| type_id := 1; offset := 0; size := 4 |}.

(** The frame a [Narrow_Struct_t] sender emits for [narrow_obj]. *)
Definition narrow_frame : list byte :=
  frame_bytes 7 (struct_meta Narrow_Struct_t) narrow_obj.

(** The buffer of [example.c] after [Serialize_Stream1_Struct_t]. *)
Definition stream1_frame : list byte :=
  frame_bytes 1 (struct_meta Stream1_Struct_t) obj1 ++ replicate 208 x00.

(** The same buffer with its first stream-id byte overwritten. *)
Definition stream1_frame_corrupted : list byte := x02 :: drop 1 stream1_frame.

Definition field1_meta : Serializer_Field_Meta_t :=
  {| type_id := 1; offset := 0; size := 4 |}.
Definition field3_meta : Serializer_Field_Meta_t :=
  {| type_id := 3; offset := 4; size := 20 |}.
Definition field4_meta : Serializer_Field_Meta_t :=
  {| type_id := 4; offset := 24; size := 2 |}.

(** A second descriptor with the id of [field1], addressing the payload at
    offset 4. *)
Definition field1_again : Serializer_Field_Meta_t :=
  {| type_id := 1; offset := 4; size := 4 |}.

(** The descriptor of an enabled field, and the test for one. *)
Definition enabled_meta (f : Struct_Field) : Serializer_Field_Meta_t :=
  {| type_id := wrap 32 (field_id f);
     offset := wrap 16 (field_offsetof f);
     size := wrap 16 (field_sizeof f) |}.

Definition is_enabled (f : Struct_Field) : bool :=
  match field_enable f with ENABLE => true | DISABLE => false end.

(** ** The second instantiation of [example.c] *)



(** ** Predicates on the copies of a decode *)

(** The copy the loop makes for the received descriptor [d], if any, stays
    inside an output record of [obj_len] bytes and a payload of
    [payload_len] bytes. *)
Definition copy_in_bounds (T : Serializer_Struct) (payload_len obj_len : nat)
    (d : Serializer_Field_Meta_t) : Prop :=
  match Serializer_Get_Meta_Field_By_ID T (type_id d) with
  | Some our =>
      Z.to_nat (offset our) + Z.to_nat (size our) ≤ obj_len ∧
      Z.to_nat (offset d) + Z.to_nat (size our) ≤ payload_len
  | None => True
  end.

(** Byte [i] of the output record lies in the extent of a local descriptor
    that some received descriptor of [received] is matched to. *)
Definition written (T : Serializer_Struct)
    (received : list Serializer_Field_Meta_t) (i : nat) : Prop :=
  ∃ d our, d ∈ received ∧
           Serializer_Get_Meta_Field_By_ID T (type_id d) = Some our ∧
           in_field our i.

(** ** [print_array] of [example.c] *)

(** Standard output is modelled as the list of the characters written. *)

(** The digit [printf] writes for a value below sixteen under [%X]. *)
Definition hex_digit (n : Z) : byte :=
  match n with
  | 0 => x30 | 1 => x31 | 2 => x32 | 3 => x33 | 4 => x34
  | 5 => x35 | 6 => x36 | 7 => x37 | 8 => x38 | 9 => x39
  | 10 => x41 | 11 => x42 | 12 => x43 | 13 => x44 | 14 => x45
  | 15 => x46
  | _ => x3f
  end%Z.

(** [printf("%02X ", data[i])] for a [uint8_t]: two upper-case hexadecimal
    digits and a space. *)
Definition printf_02X (b : byte) : list byte :=
  [hex_digit (Z_of_byte b / 16); hex_digit (Z_of_byte b mod 16); x20].

(** The loop [for (i = 0; i < size; i++)], by the iterations left; reading
    [data[i]] beyond the array has no result. *)
Fixpoint print_array_loop (data : list byte) (iterations i : nat)
  : option (list byte) :=
  match iterations with
  | O => Some []
  | S iterations' =>
      b ← data !! i;
      rest ← print_array_loop data iterations' (S i);
      Some (printf_02X b ++ rest)
  end.

Definition print_array (data : list byte) (size : nat) : option (list byte) :=
  out ← print_array_loop data size 0;
  Some (out ++ [x0a]).

(** A struct with padding between its members: a [char] and an [int32_t]. *)
Definition PADDED_FEILDS : list Struct_Field :=
  [ {| field_enable := ENABLE; field_id := 1; field_offsetof := 0; field_sizeof := 1 |};
    {| field_enable := ENABLE; field_id := 2; field_offsetof := 4; field_sizeof := 4 |} ].

Definition Padded_Struct_t : Serializer_Struct :=
  {| struct_meta := SERIALIZER_CREATE_META_IMPL PADDED_FEILDS;
     sizeof_struct := 8;
     stream_id := 5 |}.

Definition padded_obj : list byte :=
  [x01; xaa; xbb; xcc; x02; x03; x04; x05].

(** * Lemmas *)

(** ** Bytes and integers *)

Lemma Z_of_byte_of_Z v : Z_of_byte (byte_of_Z v) = (v mod 256)%Z.
Proof.
  unfold Z_of_byte, byte_of_Z.
  assert (Hr : (0 ≤ v mod 256 < 256)%Z) by (apply Z.mod_pos_bound; lia).
  destruct (Byte.of_N (Z.to_N (v mod 256))) as [b|] eqn:E.
  - apply Byte.to_of_N in E. simpl. rewrite E. lia.
  - apply Byte.of_N_None_iff in E. lia.
Qed.

Lemma length_to_bytes n v : length (to_bytes n v) = n.
Proof. revert v. induction n as [|n IH]; intros v; simpl; [done|]. by rewrite IH. Qed.

Lemma of_bytes_to_bytes n v :
  of_bytes (to_bytes n v) = (v mod 2 ^ (8 * Z.of_nat n))%Z.
Proof.
  revert v. induction n as [|n IH]; intros v.
  - simpl. by rewrite Z.mod_1_r.
  - cbn [to_bytes of_bytes]. rewrite Z_of_byte_of_Z, IH.
    replace (8 * Z.of_nat (S n))%Z with (8 + 8 * Z.of_nat n)%Z by lia.
    rewrite Z.pow_add_r by lia. change (2 ^ 8)%Z with 256%Z.
    rewrite Z.rem_mul_r by lia. lia.
Qed.

Lemma of_bytes_to_bytes_small n v :
  (0 ≤ v < 2 ^ (8 * Z.of_nat n))%Z → of_bytes (to_bytes n v) = v.
Proof. intros Hv. rewrite of_bytes_to_bytes. by apply Z.mod_small. Qed.

Lemma wrap_small bits v : (0 ≤ v < 2 ^ bits)%Z → wrap bits v = v.
Proof. intros Hv. unfold wrap. by apply Z.mod_small. Qed.

(** ** Descriptors and their bytes *)

Lemma length_meta_bytes m : length (meta_bytes m) = 8.
Proof. unfold meta_bytes. by rewrite !length_app, !length_to_bytes. Qed.

Lemma length_meta_array_bytes meta :
  length (meta_array_bytes meta) = sizeof_meta * length meta.
Proof.
  unfold meta_array_bytes, sizeof_meta.
  induction meta as [|m meta IH]; [done|].
  cbn [map concat]. rewrite length_app, length_meta_bytes, IH.
  cbn [length]. lia.
Qed.

(** Side conditions on lengths. *)
Create Rewrite HintDb lengths.
#[local] Hint Rewrite @length_app @length_take @length_drop @length_inserts
  @length_replicate length_to_bytes length_meta_bytes length_meta_array_bytes
  : lengths.

Ltac lengths :=
  autorewrite with lengths in *; unfold sizeof_meta in *; cbn [length] in *;
  first [done | lia].

Lemma meta_of_bytes_meta_bytes m :
  meta_in_range m → meta_of_bytes (meta_bytes m) = m.
Proof.
  intros (Hi & Ho & Hs). destruct m as [i o s]; simpl in *.
  unfold meta_of_bytes, meta_bytes; simpl type_id; simpl offset; simpl size.
  rewrite take_app_length' by lengths.
  rewrite drop_app_length' by lengths.
  rewrite take_app_length' by lengths.
  replace 6 with (4 + 2) by done. rewrite <- drop_drop.
  rewrite drop_app_length' by lengths.
  rewrite drop_app_length' by lengths.
  rewrite take_ge by lengths.
  rewrite !of_bytes_to_bytes_small by (simpl; lia). done.
Qed.

(** ** [memcpy] and [load] *)

Lemma memcpy_Some dst d src s n out :
  memcpy dst d src s n = Some out ↔
  (d + n ≤ length dst ∧ s + n ≤ length src) ∧
  out = list_inserts d (take n (drop s src)) dst.
Proof.
  unfold memcpy. case_decide; split.
  - intros [= <-]. done.
  - intros [_ ->]. done.
  - done.
  - intros [? _]. done.
Qed.

Lemma memcpy_is_Some dst d src s n :
  d + n ≤ length dst → s + n ≤ length src → is_Some (memcpy dst d src s n).
Proof. intros. unfold memcpy. rewrite decide_True by done. eauto. Qed.

Lemma memcpy_length dst d src s n out :
  memcpy dst d src s n = Some out → length out = length dst.
Proof. intros [_ ->]%memcpy_Some. apply length_inserts. Qed.

Lemma memcpy_lookup_in dst d src s n out i :
  memcpy dst d src s n = Some out → d ≤ i < d + n →
  out !! i = src !! (s + (i - d)).
Proof.
  intros [[Hd Hs] ->]%memcpy_Some Hi.
  rewrite list_lookup_inserts by (rewrite ?length_take, ?length_drop; lia).
  rewrite lookup_take_lt by lia. by rewrite lookup_drop.
Qed.

Lemma memcpy_lookup_out dst d src s n out i :
  memcpy dst d src s n = Some out → ¬ (d ≤ i < d + n) →
  out !! i = dst !! i.
Proof.
  intros [[Hd Hs] ->]%memcpy_Some Hi.
  destruct (decide (i < d)).
  - by rewrite list_lookup_inserts_lt.
  - rewrite list_lookup_inserts_ge; [done|].
    rewrite length_take, length_drop. lia.
Qed.

Lemma memcpy_whole dst d src n :
  n = length src → d + n ≤ length dst →
  memcpy dst d src 0 n = Some (take d dst ++ src ++ drop (d + n) dst).
Proof.
  intros -> Hd. apply memcpy_Some. split; [lia|].
  rewrite drop_0, (take_ge src) by lia.
  assert (Ht : length (take d dst) = d) by (rewrite length_take; lia).
  apply list_eq; intros i.
  destruct (decide (i < d)); [|destruct (decide (i < d + length src))].
  - rewrite list_lookup_inserts_lt, lookup_app_l, lookup_take_lt by lia. done.
  - rewrite list_lookup_inserts, lookup_app_r, lookup_app_l by lia.
    by rewrite Ht.
  - rewrite list_lookup_inserts_ge, !lookup_app_r, lookup_drop by lia.
    f_equal. lia.
Qed.

Lemma memcpy_shift obj d hdr payload s n :
  memcpy obj d (hdr ++ payload) (length hdr + s) n = memcpy obj d payload s n.
Proof.
  unfold memcpy. rewrite length_app, drop_app_add.
  repeat case_decide; try done; lia.
Qed.

Lemma load_app pre x post n :
  n = length x → load (pre ++ x ++ post) (length pre) n = Some x.
Proof.
  intros ->. unfold load. rewrite decide_True by (rewrite !length_app; lia).
  by rewrite drop_app_length, take_app_length.
Qed.

Lemma memcpy_middle pre old post src d n :
  d = length pre → n = length src → length old = n →
  memcpy (pre ++ old ++ post) d src 0 n = Some (pre ++ src ++ post).
Proof.
  intros -> -> Ho. rewrite memcpy_whole by (rewrite ?length_app; lia).
  rewrite take_app_length, drop_app_add, <- Ho, drop_app_length. done.
Qed.

Lemma to_bytes_mod n v : to_bytes n (v mod 2 ^ (8 * Z.of_nat n)) = to_bytes n v.
Proof.
  revert v. induction n as [|n IH]; intros v; [done|].
  replace (8 * Z.of_nat (S n))%Z with (8 + 8 * Z.of_nat n)%Z by lia.
  rewrite Z.pow_add_r by lia. change (2 ^ 8)%Z with 256%Z.
  assert (Hp : (0 < 2 ^ (8 * Z.of_nat n))%Z) by (apply Z.pow_pos_nonneg; lia).
  set (M := (2 ^ (8 * Z.of_nat n))%Z) in *.
  assert (E : (v mod (256 * M) = v mod 256 + ((v / 256) mod M) * 256)%Z)
    by (rewrite Z.rem_mul_r by lia; lia).
  assert (Hr : (0 ≤ v mod 256 < 256)%Z) by (apply Z.mod_pos_bound; lia).
  cbn [to_bytes]. rewrite E. f_equal.
  - unfold byte_of_Z. do 3 f_equal. rewrite Z.mod_add by lia.
    apply Z.mod_mod. lia.
  - rewrite Z.div_add by lia.
    rewrite (Z.div_small (v mod 256)) by lia. apply IH.
Qed.

Lemma to_bytes_wrap32 v : to_bytes 4 (wrap 32 v) = to_bytes 4 v.
Proof. apply (to_bytes_mod 4). Qed.


Lemma load_prefix x post n :
  n = length x → load (x ++ post) 0 n = Some x.
Proof. apply (load_app []). Qed.

(** ** The bytes [Serialize] leaves in the buffer *)

Lemma Serialize_bytes T buffer obj :
  frame_length T ≤ length buffer → length obj = sizeof_struct T →
  Serialize T buffer obj =
  Some (frame_bytes (stream_id T) (struct_meta T) obj ++
        drop (frame_length T) buffer).
Proof.
  unfold frame_length, frame_bytes, Serialize. intros Hlen Hobj.
  rewrite !to_bytes_wrap32.
  set (n := sizeof_meta * length (struct_meta T)) in *.
  set (sid := to_bytes 4 (stream_id T)).
  set (cnt := to_bytes 4 (Z.of_nat (length (struct_meta T)))).
  set (tbl := meta_array_bytes (struct_meta T)).
  assert (Hsplit : buffer =
    [] ++ take 4 buffer ++ take 4 (drop 4 buffer) ++ take n (drop 8 buffer) ++
    take (sizeof_struct T) (drop (8 + n) buffer) ++
    drop (8 + n + sizeof_struct T) buffer).
  { cbn [app]. rewrite <- (drop_drop buffer (sizeof_struct T) (8 + n)), take_drop.
    rewrite <- (drop_drop buffer n 8), take_drop.
    change 8 with (4 + 4). rewrite <- (drop_drop buffer 4 4).
    by rewrite !take_drop. }
  rewrite Hsplit at 1.
  rewrite (memcpy_middle [] _ _ sid)
    by (subst sid; lengths).
  cbn [mbind option_bind app].
  rewrite (memcpy_middle sid _ _ cnt)
    by (subst sid cnt; lengths).
  cbn [mbind option_bind].
  rewrite (app_assoc sid cnt).
  rewrite (memcpy_middle (sid ++ cnt) _ _ tbl)
    by (subst sid cnt tbl n; lengths).
  cbn [mbind option_bind].
  rewrite (app_assoc (sid ++ cnt) tbl).
  rewrite (memcpy_middle ((sid ++ cnt) ++ tbl) _ _ obj)
    by (subst sid cnt tbl n; lengths).
  by rewrite <- !app_assoc.
Qed.

(** ** [Deserialize] on the bytes of a frame *)

Lemma Deserialize_field_shift T hdr payload d obj :
  Deserialize_field T (hdr ++ payload) (length hdr) d obj =
  Deserialize_field T payload 0 d obj.
Proof.
  unfold Deserialize_field.
  destruct (Serializer_Get_Meta_Field_By_ID T (type_id d)); [|done].
  apply memcpy_shift.
Qed.

Lemma Deserialize_loop_fields T table : ∀ pre payload obj ptr objptr,
  Forall meta_in_range table →
  ptr = length pre →
  objptr = length pre + sizeof_meta * length table →
  Deserialize_loop T (pre ++ meta_array_bytes table ++ payload) objptr
                   (length table) ptr obj =
  Deserialize_fields T payload table obj.
Proof.
  induction table as [|d table IH]; intros pre payload obj ptr objptr Hr -> ->;
    [done|].
  apply Forall_cons in Hr as [Hd Hr].
  cbn [length Deserialize_loop Deserialize_fields].
  unfold meta_array_bytes; cbn [map concat]; fold (meta_array_bytes table).
  rewrite <- (app_assoc (meta_bytes d)).
  rewrite load_app by lengths.
  cbn [mbind option_bind]. rewrite meta_of_bytes_meta_bytes by done.
  assert (Hobj : length pre + sizeof_meta * S (length table) =
                 length (pre ++ meta_bytes d ++ meta_array_bytes table)).
  { lengths. }
  rewrite Hobj.
  replace (pre ++ meta_bytes d ++ meta_array_bytes table ++ payload)
    with ((pre ++ meta_bytes d ++ meta_array_bytes table) ++ payload)
    by (by rewrite <- !app_assoc).
  rewrite Deserialize_field_shift.
  destruct (Deserialize_field T payload 0 d obj) as [obj'|]; [|done].
  cbn [mbind option_bind].
  rewrite <- !app_assoc, (app_assoc pre (meta_bytes d)).
  apply IH; [done| |].
  - lengths.
  - lengths.
Qed.

Section Received_Frame.

Variable T : Serializer_Struct.
Variables (sid : Z) (table : list Serializer_Field_Meta_t).
Variables (payload obj : list byte).
Hypothesis Hsid : (0 ≤ sid < 2 ^ 32)%Z.
Hypothesis Hlen : (Z.of_nat (length table) < 2 ^ 32)%Z.
Hypothesis Hr : Forall meta_in_range table.

Lemma Deserialize_frame :
  Deserialize T (frame_bytes sid table payload) obj =
  if decide (sid ≠ stream_id T)
  then Some (SERIALIZER_DESERIALIZER_ERROR_STREAM_ID_MISMATCH, obj)
  else obj' ← Deserialize_fields T payload table obj;
       Some (SERIALIZER_DESERIALIZER_ERROR_NONE, obj').
Proof.
  unfold Deserialize, frame_bytes.
  rewrite load_prefix by lengths.
  cbn [mbind option_bind].
  rewrite (of_bytes_to_bytes_small 4) by (simpl; lia).
  case_decide; [done|].
  rewrite (load_app (to_bytes 4 sid)) by lengths.
  cbn [mbind option_bind].
  rewrite (of_bytes_to_bytes_small 4) by (simpl; lia).
  rewrite Nat2Z.id.
  rewrite (app_assoc (to_bytes 4 sid)).
  rewrite Deserialize_loop_fields; [done|done| |].
  - lengths.
  - lengths.
Qed.

Lemma Deserialize_frame_NONE out :
  Deserialize T (frame_bytes sid table payload) obj =
    Some (SERIALIZER_DESERIALIZER_ERROR_NONE, out) →
  sid = stream_id T ∧ Deserialize_fields T payload table obj = Some out.
Proof.
  rewrite Deserialize_frame.
  case_decide as Hs; [done|].
  destruct (Deserialize_fields T payload table obj); [|done].
  cbn [mbind option_bind]. intros [= <-]. split; [|done].
  by destruct (decide (sid = stream_id T)).
Qed.

End Received_Frame.

(** ** The lookup by id *)

Lemma meta_scan_Some id entries m :
  meta_scan id entries = Some m → m ∈ entries ∧ type_id m = id.
Proof.
  induction entries as [|e entries IH]; simpl; [done|].
  case_decide as He.
  - intros [= <-]. split; [apply list_elem_of_here|done].
  - intros [Hin ?]%IH. split; [by apply list_elem_of_further|done].
Qed.

Lemma meta_scan_NoDup entries m :
  NoDup (meta_ids entries) → m ∈ entries →
  meta_scan (type_id m) entries = Some m.
Proof.
  unfold meta_ids. induction entries as [|e entries IH]; simpl.
  - intros _ []%elem_of_nil.
  - intros [Hfresh Hnd]%NoDup_cons [->|Hin]%elem_of_cons.
    + by rewrite decide_True.
    + rewrite decide_False; [by apply IH|].
      intros He. apply Hfresh. rewrite He. by apply list_elem_of_fmap_2.
Qed.

Lemma Get_Meta_Field_Some T id m :
  Serializer_Get_Meta_Field_By_ID T id = Some m →
  m ∈ struct_meta T ∧ type_id m = id.
Proof.
  unfold Serializer_Get_Meta_Field_By_ID.
  intros [Hin ?]%meta_scan_Some. split; [|done].
  apply list_elem_of_lookup in Hin as [i Hi].
  apply lookup_take_Some in Hi as [Hi _].
  apply list_elem_of_lookup. eauto.
Qed.

Lemma Get_Meta_Field_whole T id :
  (Z.of_nat (length (struct_meta T)) < 2 ^ 32)%Z →
  Serializer_Get_Meta_Field_By_ID T id = meta_scan id (struct_meta T).
Proof.
  intros Hlen. unfold Serializer_Get_Meta_Field_By_ID.
  rewrite wrap_small by lia. rewrite Nat2Z.id. by rewrite take_ge.
Qed.

Lemma Get_Meta_Field_NoDup T m :
  (Z.of_nat (length (struct_meta T)) < 2 ^ 32)%Z →
  NoDup (meta_ids (struct_meta T)) → m ∈ struct_meta T →
  Serializer_Get_Meta_Field_By_ID T (type_id m) = Some m.
Proof.
  intros Hlen Hnd Hin. rewrite Get_Meta_Field_whole by done.
  by apply meta_scan_NoDup.
Qed.

Lemma fields_disjoint_sym m1 m2 : fields_disjoint m1 m2 → fields_disjoint m2 m1.
Proof. unfold fields_disjoint. tauto. Qed.

Lemma meta_disjoint_ids meta m1 m2 :
  meta_disjoint meta → m1 ∈ meta → m2 ∈ meta → type_id m1 ≠ type_id m2 →
  fields_disjoint m1 m2.
Proof.
  induction meta as [|m meta IH]; simpl.
  - by intros _ ?%elem_of_nil.
  - intros [Hm Hd] [->|H1]%elem_of_cons [->|H2]%elem_of_cons Hne.
    + done.
    + by eapply Forall_forall in Hm.
    + apply fields_disjoint_sym. by eapply Forall_forall in Hm.
    + by apply IH.
Qed.

Lemma fields_disjoint_not_in m1 m2 i :
  fields_disjoint m1 m2 → in_field m2 i → ¬ in_field m1 i.
Proof. unfold fields_disjoint, in_field. lia. Qed.

Lemma field_bytes_ext m a b :
  (∀ i, in_field m i → a !! i = b !! i) → field_bytes m a = field_bytes m b.
Proof.
  intros H. unfold field_bytes. apply list_eq; intros j.
  destruct (decide (j < Z.to_nat (size m))).
  - rewrite !lookup_take_lt, !lookup_drop by done. apply H.
    unfold in_field. lia.
  - by rewrite !lookup_take_ge by lia.
Qed.

(** ** One iteration of the loop *)

Lemma Deserialize_field_length T payload ptr d obj out :
  Deserialize_field T payload ptr d obj = Some out → length out = length obj.
Proof.
  unfold Deserialize_field.
  destruct (Serializer_Get_Meta_Field_By_ID T (type_id d)).
  - apply memcpy_length.
  - by intros [= <-].
Qed.

Lemma Deserialize_field_outside T payload ptr d obj out i :
  Deserialize_field T payload ptr d obj = Some out →
  (∀ our, Serializer_Get_Meta_Field_By_ID T (type_id d) = Some our →
          ¬ in_field our i) →
  out !! i = obj !! i.
Proof.
  unfold Deserialize_field.
  destruct (Serializer_Get_Meta_Field_By_ID T (type_id d)) as [our|].
  - intros Hc Hi. eapply memcpy_lookup_out; [done|]. by apply Hi.
  - by intros [= <-].
Qed.

Lemma Deserialize_field_inside T payload ptr d obj out our i :
  Deserialize_field T payload ptr d obj = Some out →
  Serializer_Get_Meta_Field_By_ID T (type_id d) = Some our →
  in_field our i →
  out !! i = payload !! (ptr + Z.to_nat (offset d) + (i - Z.to_nat (offset our))).
Proof.
  unfold Deserialize_field. intros Hc Hg Hi. rewrite Hg in Hc.
  by rewrite (memcpy_lookup_in _ _ _ _ _ _ i Hc).
Qed.

(** ** The loop over a table *)

Lemma Deserialize_fields_app T payload R1 R2 obj :
  Deserialize_fields T payload (R1 ++ R2) obj =
  Deserialize_fields T payload R1 obj ≫= Deserialize_fields T payload R2.
Proof.
  revert obj. induction R1 as [|d R1 IH]; intros obj; [done|].
  cbn [app Deserialize_fields].
  destruct (Deserialize_field T payload 0 d obj); [apply IH|done].
Qed.

Lemma Deserialize_fields_length T payload R obj out :
  Deserialize_fields T payload R obj = Some out → length out = length obj.
Proof.
  revert obj. induction R as [|d R IH]; intros obj; simpl.
  - by intros [= <-].
  - destruct (Deserialize_field T payload 0 d obj) as [obj'|] eqn:E; [|done].
    simpl. intros ->%IH. by eapply Deserialize_field_length.
Qed.

Lemma Deserialize_fields_outside T payload R obj out i :
  Deserialize_fields T payload R obj = Some out →
  (∀ d our, d ∈ R → Serializer_Get_Meta_Field_By_ID T (type_id d) = Some our →
            ¬ in_field our i) →
  out !! i = obj !! i.
Proof.
  revert obj. induction R as [|d R IH]; intros obj; simpl.
  - by intros [= <-].
  - destruct (Deserialize_field T payload 0 d obj) as [obj'|] eqn:E; [|done].
    simpl. intros Hc Hi. rewrite (IH _ Hc).
    + eapply Deserialize_field_outside; [done|].
      intros our. apply Hi, list_elem_of_here.
    + intros d' our Hd'. apply Hi. by apply list_elem_of_further.
Qed.

Lemma Deserialize_fields_split T payload R1 d R2 obj out :
  Deserialize_fields T payload (R1 ++ d :: R2) obj = Some out →
  ∃ mid mid', Deserialize_fields T payload R1 obj = Some mid ∧
              Deserialize_field T payload 0 d mid = Some mid' ∧
              Deserialize_fields T payload R2 mid' = Some out.
Proof.
  rewrite Deserialize_fields_app. cbn [Deserialize_fields].
  destruct (Deserialize_fields T payload R1 obj) as [mid|]; [|done].
  cbn [mbind option_bind].
  destruct (Deserialize_field T payload 0 d mid) as [mid'|] eqn:Hd; [|done].
  cbn [mbind option_bind]. intros H2. by exists mid, mid'.
Qed.

(** ** Copies into disjoint extents commute *)

Lemma list_lookup_inserts_out {A} (l k : list A) d i :
  ¬ (d ≤ i < d + length k) → list_inserts d k l !! i = l !! i.
Proof.
  intros Hi. destruct (decide (i < d)).
  - by apply list_lookup_inserts_lt.
  - apply list_lookup_inserts_ge. lia.
Qed.

Lemma list_inserts_comm {A} (l k1 k2 : list A) a b :
  a + length k1 ≤ b ∨ b + length k2 ≤ a →
  a + length k1 ≤ length l → b + length k2 ≤ length l →
  list_inserts b k2 (list_inserts a k1 l) =
  list_inserts a k1 (list_inserts b k2 l).
Proof.
  intros Hdis Ha Hb. apply list_eq; intros i.
  destruct (decide (a ≤ i < a + length k1)) as [Hia|Hia];
    [|destruct (decide (b ≤ i < b + length k2)) as [Hib|Hib]].
  - rewrite (list_lookup_inserts_out _ k2) by lia.
    rewrite !list_lookup_inserts by (rewrite ?length_inserts; lia). done.
  - rewrite (list_lookup_inserts_out _ k1) by lia.
    rewrite !list_lookup_inserts by (rewrite ?length_inserts; lia). done.
  - by rewrite !list_lookup_inserts_out by lia.
Qed.

Lemma memcpy_comm obj payload a s1 n1 b s2 n2 :
  a + n1 ≤ b ∨ b + n2 ≤ a →
  memcpy obj a payload s1 n1 ≫= (λ o, memcpy o b payload s2 n2) =
  memcpy obj b payload s2 n2 ≫= (λ o, memcpy o a payload s1 n1).
Proof.
  intros Hdis. unfold memcpy.
  destruct (decide (a + n1 ≤ length obj ∧ s1 + n1 ≤ length payload)) as [H1|H1];
  destruct (decide (b + n2 ≤ length obj ∧ s2 + n2 ≤ length payload)) as [H2|H2];
    cbn [mbind option_bind]; rewrite ?length_inserts;
    rewrite ?(decide_True _ _ H1), ?(decide_True _ _ H2),
            ?(decide_False _ _ H1), ?(decide_False _ _ H2); try done.
  f_equal. apply list_inserts_comm; rewrite ?length_take, ?length_drop; lia.
Qed.

(** ** A local table whose members occupy disjoint extents *)

Section Disjoint_Extents.

Variable T : Serializer_Struct.
Variable payload : list byte.
Hypothesis Hdis : meta_disjoint (struct_meta T).

Lemma Deserialize_fields_keeps_field R obj out f i :
  f ∈ struct_meta T →
  type_id f ∉ meta_ids R →
  Deserialize_fields T payload R obj = Some out →
  in_field f i → out !! i = obj !! i.
Proof.
  intros Hf Hid Hc Hi. eapply Deserialize_fields_outside; [done|].
  intros d our Hd [Hour Heq]%Get_Meta_Field_Some.
  apply (fields_disjoint_not_in our f); [|done].
  apply (meta_disjoint_ids (struct_meta T)); [done..|].
  rewrite Heq. intros E. apply Hid. rewrite <- E.
  by apply list_elem_of_fmap_2.
Qed.

Lemma Deserialize_fields_last R1 d R2 obj out our i :
  Serializer_Get_Meta_Field_By_ID T (type_id d) = Some our →
  type_id d ∉ meta_ids R2 →
  Deserialize_fields T payload (R1 ++ d :: R2) obj = Some out →
  in_field our i →
  out !! i = payload !! (Z.to_nat (offset d) + (i - Z.to_nat (offset our))).
Proof.
  intros Hg Hid (mid & mid' & _ & Hd & H2)%Deserialize_fields_split Hi.
  pose proof (Get_Meta_Field_Some _ _ _ Hg) as [Hour Heq].
  rewrite (Deserialize_fields_keeps_field R2 mid' out our i);
    [|done|by rewrite Heq|done|done].
  by rewrite (Deserialize_field_inside _ _ _ _ _ _ _ _ Hd Hg Hi).
Qed.

Lemma Deserialize_field_comm d1 d2 obj :
  type_id d1 ≠ type_id d2 →
  Deserialize_field T payload 0 d1 obj ≫= Deserialize_field T payload 0 d2 =
  Deserialize_field T payload 0 d2 obj ≫= Deserialize_field T payload 0 d1.
Proof.
  intros Hne. unfold Deserialize_field.
  destruct (Serializer_Get_Meta_Field_By_ID T (type_id d1)) as [our1|] eqn:E1;
  destruct (Serializer_Get_Meta_Field_By_ID T (type_id d2)) as [our2|] eqn:E2;
    cbn [mbind option_bind]; try done.
  - apply Get_Meta_Field_Some in E1 as [Hin1 Hid1].
    apply Get_Meta_Field_Some in E2 as [Hin2 Hid2].
    apply memcpy_comm.
    apply (meta_disjoint_ids (struct_meta T)); [done..|congruence].
  - by destruct (memcpy _ _ _ _ _).
  - by destruct (memcpy _ _ _ _ _).
Qed.

Lemma Deserialize_fields_Permutation R R' :
  R ≡ₚ R' → NoDup (meta_ids R) →
  ∀ obj, Deserialize_fields T payload R obj = Deserialize_fields T payload R' obj.
Proof.
  intros Hperm. unfold meta_ids.
  induction Hperm as [|x l l' Hperm IH|x y l|l l' l'' H1 IH1 H2 IH2];
    intros Hnd obj.
  - done.
  - cbn [Deserialize_fields].
    apply NoDup_cons in Hnd as [_ Hnd].
    destruct (Deserialize_field T payload 0 x obj); [by apply IH|done].
  - cbn [Deserialize_fields].
    assert (Hne : type_id y ≠ type_id x).
    { apply NoDup_cons in Hnd as [Hy _]. intros E. apply Hy.
      rewrite E. apply list_elem_of_here. }
    pose proof (Deserialize_field_comm y x obj Hne) as Hc.
    destruct (Deserialize_field T payload 0 y obj) as [o1|];
    destruct (Deserialize_field T payload 0 x obj) as [o2|];
      cbn [mbind option_bind] in *.
    + by rewrite Hc.
    + by rewrite Hc.
    + by rewrite <- Hc.
    + done.
  - rewrite IH1 by done. apply IH2. by rewrite <- H1.
Qed.

End Disjoint_Extents.

(** ** Decoding the image of a record with its own table *)

Lemma in_field_dec m i : Decision (in_field m i).
Proof. unfold in_field. apply _. Defined.



Lemma Deserialize_fields_is_Some T payload R : ∀ obj,
  (∀ d our, d ∈ R → Serializer_Get_Meta_Field_By_ID T (type_id d) = Some our →
            field_within (length obj) our ∧
            Z.to_nat (offset d) + Z.to_nat (size our) ≤ length payload) →
  is_Some (Deserialize_fields T payload R obj).
Proof.
  induction R as [|d R IH]; intros obj HR; [by eexists|].
  cbn [Deserialize_fields].
  assert (Hd : is_Some (Deserialize_field T payload 0 d obj)).
  { unfold Deserialize_field.
    destruct (Serializer_Get_Meta_Field_By_ID T (type_id d)) as [our|] eqn:Hg;
      [|by eexists].
    destruct (HR d our) as [Hw Hp]; [apply list_elem_of_here|done|].
    apply memcpy_is_Some; [done|lia]. }
  destruct Hd as [obj1 Hd]. rewrite Hd. cbn [mbind option_bind].
  apply IH. intros d' our Hd' Hg.
  rewrite (Deserialize_field_length _ _ _ _ _ _ Hd).
  apply HR; [by apply list_elem_of_further|done].
Qed.

Lemma Deserialize_fields_skip T payload R1 d R2 obj :
  Serializer_Get_Meta_Field_By_ID T (type_id d) = None →
  Deserialize_fields T payload (R1 ++ d :: R2) obj =
  Deserialize_fields T payload (R1 ++ R2) obj.
Proof.
  intros Hg. rewrite !Deserialize_fields_app.
  destruct (Deserialize_fields T payload R1 obj) as [mid|]; [|done].
  cbn [mbind option_bind Deserialize_fields].
  unfold Deserialize_field at 1. by rewrite Hg.
Qed.

(** ** The representation of integers is little-endian *)

Lemma byte_of_Z_land v : byte_of_Z (Z.land v 255) = byte_of_Z v.
Proof.
  unfold byte_of_Z. change 255%Z with (Z.ones 8).
  rewrite Z.land_ones by lia. change (2 ^ 8)%Z with 256%Z.
  by rewrite Z.mod_mod by lia.
Qed.

Lemma to_bytes_shifted n : ∀ s v,
  to_bytes n (Z.shiftr v (8 * Z.of_nat s)) =
  (λ k, byte_of_Z (Z.land (Z.shiftr v (8 * Z.of_nat k)) 255)) <$> seq s n.
Proof.
  induction n as [|n IH]; intros s v; [done|].
  cbn [to_bytes seq fmap list_fmap]. rewrite byte_of_Z_land. f_equal.
  rewrite <- IH. f_equal.
  rewrite !Z.shiftr_div_pow2 by lia.
  replace (8 * Z.of_nat (S s))%Z with (8 * Z.of_nat s + 8)%Z by lia.
  rewrite Z.pow_add_r, Z.div_div by lia. done.
Qed.

Lemma to_bytes_little_endian n v : to_bytes n v = little_endian n v.
Proof. apply (to_bytes_shifted n 0 v). Qed.

Lemma frame_bytes_wire sid table payload :
  frame_bytes sid table payload = wire_frame sid table payload.
Proof.
  unfold frame_bytes, wire_frame. rewrite !to_bytes_little_endian. do 3 f_equal.
  unfold meta_array_bytes. induction table as [|m table IH]; [done|].
  cbn [map fmap list_fmap concat]. rewrite IH. f_equal.
  unfold meta_bytes, wire_descriptor. by rewrite !to_bytes_little_endian.
Qed.

(** * The claims *)

(** C6. For every record, schema and stream id, [Serialize] leaves in the
    destination buffer, in order: the stream id as a 4-byte little-endian
    [u32], the field count (the length of the schema) as a 4-byte
    little-endian [u32], each descriptor of the schema in its declared order
    in 8 bytes (id, offset, size), and the byte image of the record as one
    block of exactly the record's size. *)
Theorem Serialize_wire_format T buffer obj :
  (0 ≤ stream_id T < 2 ^ 32)%Z →
  (Z.of_nat (length (struct_meta T)) < 2 ^ 32)%Z →
  length obj = sizeof_struct T →
  frame_length T ≤ length buffer →
  Serialize T buffer obj =
  Some (little_endian 4 (stream_id T) ++
        little_endian 4 (Z.of_nat (length (struct_meta T))) ++
        concat (wire_descriptor <$> struct_meta T) ++
        obj ++
        drop (frame_length T) buffer) ∧
  length (little_endian 4 (stream_id T)) = 4 ∧
  of_bytes (little_endian 4 (stream_id T)) = stream_id T ∧
  length (little_endian 4 (Z.of_nat (length (struct_meta T)))) = 4 ∧
  of_bytes (little_endian 4 (Z.of_nat (length (struct_meta T)))) =
    Z.of_nat (length (struct_meta T)) ∧
  Forall (λ m, length (wire_descriptor m) = 8) (struct_meta T).
Proof.
  intros Hsid Hcount Hobj Hlen.
  rewrite <- !to_bytes_little_endian.
  split; [|split; [|split; [|split; [|split]]]].
  - rewrite Serialize_bytes, frame_bytes_wire by done.
    unfold wire_frame. by rewrite <- !app_assoc, <- !to_bytes_little_endian.
  - lengths.
  - apply (of_bytes_to_bytes_small 4). simpl. lia.
  - lengths.
  - apply (of_bytes_to_bytes_small 4). simpl. lia.
  - apply Forall_forall. intros m _. unfold wire_descriptor.
    rewrite <- !to_bytes_little_endian. lengths.
Qed.

(** C9. [Serialize] writes exactly the first [8 + 8 * field_count +
    record_size] bytes of the destination buffer, leaves every byte beyond
    that prefix unchanged, and what it writes does not depend on the prior
    contents of the buffer. *)
Theorem Serialize_frame_effect T buffer obj out :
  length obj = sizeof_struct T →
  frame_length T ≤ length buffer →
  Serialize T buffer obj = Some out →
  length out = length buffer ∧
  take (frame_length T) out = frame_bytes (stream_id T) (struct_meta T) obj ∧
  length (frame_bytes (stream_id T) (struct_meta T) obj) = frame_length T ∧
  drop (frame_length T) out = drop (frame_length T) buffer ∧
  ∀ buffer', frame_length T ≤ length buffer' →
    ∃ out', Serialize T buffer' obj = Some out' ∧
            take (frame_length T) out' = take (frame_length T) out.
Proof.
  intros Hobj Hlen Hs. rewrite Serialize_bytes in Hs by done.
  assert (Ho : out = frame_bytes (stream_id T) (struct_meta T) obj ++
                     drop (frame_length T) buffer) by congruence.
  clear Hs. subst out.
  assert (Hf : length (frame_bytes (stream_id T) (struct_meta T) obj) =
               frame_length T).
  { unfold frame_bytes, frame_length.
    rewrite !length_app, !length_to_bytes, length_meta_array_bytes. lia. }
  split; [|split; [|split; [|split]]].
  - rewrite length_app, Hf, length_drop. lia.
  - by rewrite take_app_length'.
  - done.
  - by rewrite drop_app_length'.
  - intros buffer' Hlen'. eexists. split; [by apply Serialize_bytes|].
    by rewrite !take_app_length'.
Qed.


(** C4. Whenever [Deserialize] returns [ERROR_NONE], every local field
    whose id appears in none of the received descriptors holds the bytes the
    output record held on entry; nothing is written into it. *)
Theorem Deserialize_missing_field_kept T sid table payload obj out f :
  (0 ≤ sid < 2 ^ 32)%Z → (Z.of_nat (length table) < 2 ^ 32)%Z →
  Forall meta_in_range table →
  meta_disjoint (struct_meta T) →
  f ∈ struct_meta T →
  type_id f ∉ meta_ids table →
  Deserialize T (frame_bytes sid table payload) obj =
    Some (SERIALIZER_DESERIALIZER_ERROR_NONE, out) →
  field_bytes f out = field_bytes f obj ∧ length out = length obj.
Proof.
  intros Hsid Hlen Hr Hdis Hf Hid [_ Hc]%Deserialize_frame_NONE; [|done..].
  split.
  - apply field_bytes_ext. intros i Hi.
    by eapply Deserialize_fields_keeps_field.
  - by eapply Deserialize_fields_length.
Qed.

(** C10. The received descriptors are processed in transmission order, each
    matched one copied when it is reached; so when an id occurs more than
    once in the meta table, the matched local field ends with the bytes
    addressed by the last occurrence. *)
Theorem Deserialize_last_occurrence_wins T sid R1 d R2 payload obj out our :
  (0 ≤ sid < 2 ^ 32)%Z →
  (Z.of_nat (length (R1 ++ d :: R2)) < 2 ^ 32)%Z →
  Forall meta_in_range (R1 ++ d :: R2) →
  meta_disjoint (struct_meta T) →
  Serializer_Get_Meta_Field_By_ID T (type_id d) = Some our →
  type_id d ∉ meta_ids R2 →
  Deserialize T (frame_bytes sid (R1 ++ d :: R2) payload) obj =
    Some (SERIALIZER_DESERIALIZER_ERROR_NONE, out) →
  field_bytes our out =
    take (Z.to_nat (size our)) (drop (Z.to_nat (offset d)) payload) ∧
  ∃ mid mid', Deserialize_fields T payload R1 obj = Some mid ∧
              Deserialize_field T payload 0 d mid = Some mid' ∧
              field_bytes our mid' =
                take (Z.to_nat (size our)) (drop (Z.to_nat (offset d)) payload) ∧
              Deserialize_fields T payload R2 mid' = Some out.
Proof.
  intros Hsid Hlen Hr Hdis Hg Hid [_ Hc]%Deserialize_frame_NONE; [|done..].
  assert (Hbytes : ∀ o : list byte,
    (∀ i, in_field our i →
       o !! i = payload !! (Z.to_nat (offset d) + (i - Z.to_nat (offset our)))) →
    field_bytes our o =
      take (Z.to_nat (size our)) (drop (Z.to_nat (offset d)) payload)).
  { intros o Ho. unfold field_bytes. apply list_eq; intros j.
    destruct (decide (j < Z.to_nat (size our))).
    - rewrite !lookup_take_lt, !lookup_drop by done.
      rewrite Ho by (unfold in_field; lia). f_equal. lia.
    - by rewrite !lookup_take_ge by lia. }
  split.
  - apply Hbytes. intros i Hi. by eapply Deserialize_fields_last.
  - destruct (Deserialize_fields_split _ _ _ _ _ _ _ Hc)
      as (mid & mid' & H1 & Hd & H2).
    exists mid, mid'. split; [done|]. split; [done|]. split; [|done].
    apply Hbytes. intros i Hi.
    by rewrite (Deserialize_field_inside _ _ _ _ _ _ _ _ Hd Hg Hi).
Qed.

(** C7. Permuting the entries of a frame's meta table, the descriptors
    themselves and the payload unchanged, does not change what [Deserialize]
    returns: the same error value and the same final output record. *)
Theorem Deserialize_order_independent T sid table table' payload obj :
  (0 ≤ sid < 2 ^ 32)%Z → (Z.of_nat (length table) < 2 ^ 32)%Z →
  Forall meta_in_range table →
  meta_disjoint (struct_meta T) →
  NoDup (meta_ids table) →
  table ≡ₚ table' →
  Deserialize T (frame_bytes sid table' payload) obj =
  Deserialize T (frame_bytes sid table payload) obj.
Proof.
  intros Hsid Hlen Hr Hdis Hnd Hperm.
  assert (Hlen' : (Z.of_nat (length table') < 2 ^ 32)%Z) by (by rewrite <- Hperm).
  assert (Hr' : Forall meta_in_range table') by (by rewrite <- Hperm).
  rewrite !Deserialize_frame by done.
  case_decide; [done|].
  by rewrite (Deserialize_fields_Permutation T payload Hdis table table').
Qed.


(** C5. A received descriptor whose id matches no local descriptor is
    skipped: the iteration returns the output record as it was and the loop
    goes on, so the frame decodes as it would without that descriptor.  A
    frame encoded with a schema that has the ids of the local schema and
    one more, decoded with the local schema, returns [ERROR_NONE] and gives
    every local field the bytes of the sender's field of the same id. *)
Theorem Deserialize_unknown_field_skipped T1 :
  (∀ buffer ptr d obj,
     Serializer_Get_Meta_Field_By_ID T1 (type_id d) = None →
     Deserialize_field T1 buffer ptr d obj = Some obj) ∧
  (∀ sid R1 d R2 payload obj,
     (0 ≤ sid < 2 ^ 32)%Z →
     (Z.of_nat (length (R1 ++ d :: R2)) < 2 ^ 32)%Z →
     Forall meta_in_range (R1 ++ d :: R2) →
     Serializer_Get_Meta_Field_By_ID T1 (type_id d) = None →
     Deserialize T1 (frame_bytes sid (R1 ++ d :: R2) payload) obj =
     Deserialize T1 (frame_bytes sid (R1 ++ R2) payload) obj) ∧
  (∀ T2 extra buffer r2 obj,
     (0 ≤ stream_id T2 < 2 ^ 32)%Z →
     stream_id T2 = stream_id T1 →
     (Z.of_nat (length (struct_meta T2)) < 2 ^ 32)%Z →
     (Z.of_nat (length (struct_meta T1)) < 2 ^ 32)%Z →
     Forall meta_in_range (struct_meta T2) →
     Forall (field_within (sizeof_struct T2)) (struct_meta T2) →
     Forall (field_within (sizeof_struct T1)) (struct_meta T1) →
     meta_disjoint (struct_meta T1) →
     NoDup (meta_ids (struct_meta T1)) →
     type_id extra ∉ meta_ids (struct_meta T1) →
     meta_ids (struct_meta T2) ≡ₚ type_id extra :: meta_ids (struct_meta T1) →
     (∀ f1 f2, f1 ∈ struct_meta T1 → f2 ∈ struct_meta T2 →
               type_id f1 = type_id f2 → size f1 = size f2) →
     length r2 = sizeof_struct T2 →
     length obj = sizeof_struct T1 →
     frame_length T2 ≤ length buffer →
     ∃ frame out,
       Serialize T2 buffer r2 = Some frame ∧
       Deserialize T1 frame obj = Some (SERIALIZER_DESERIALIZER_ERROR_NONE, out) ∧
       ∀ f1, f1 ∈ struct_meta T1 →
         ∃ f2, f2 ∈ struct_meta T2 ∧ type_id f2 = type_id f1 ∧
               field_bytes f1 out = field_bytes f2 r2).
Proof.
  split; [|split].
  - intros buffer ptr d obj Hg. unfold Deserialize_field. by rewrite Hg.
  - intros sid R1 d R2 payload obj Hsid Hlen Hr Hg.
    rewrite !Deserialize_frame; [| done | | | done..].
    + case_decide; [done|]. by rewrite Deserialize_fields_skip.
    + rewrite length_app in *. cbn [length] in Hlen. lia.
    + apply Forall_app in Hr as [? [_ ?]%Forall_cons]. by apply Forall_app.
  - intros T2 extra buffer r2 obj Hsid Hsame Hlen2 Hlen1 Hr2 Hw2 Hw1 Hdis Hnd1
      Hfresh Hids Hsize Hr2len Hobj Hbuf.
    set (payload := r2 ++ drop (frame_length T2) buffer).
    assert (Hnd2 : NoDup (meta_ids (struct_meta T2))).
    { rewrite Hids. by apply NoDup_cons. }
    assert (Hget : ∀ f1, f1 ∈ struct_meta T1 →
              Serializer_Get_Meta_Field_By_ID T1 (type_id f1) = Some f1)
      by (intros; by apply Get_Meta_Field_NoDup).
    destruct (Deserialize_fields_is_Some T1 payload (struct_meta T2) obj)
      as [out Hout].
    { intros d our Hd [Hour Hid]%Get_Meta_Field_Some. split.
      - rewrite Hobj. by eapply Forall_forall in Hw1.
      - rewrite (Hsize our d) by done.
        eapply Forall_forall in Hw2; [|exact Hd]. unfold field_within in Hw2.
        subst payload. rewrite length_app. lia. }
    exists (frame_bytes (stream_id T2) (struct_meta T2) r2 ++
            drop (frame_length T2) buffer), out.
    split; [by apply Serialize_bytes|]. split.
    + unfold frame_bytes at 1. rewrite <- !app_assoc.
      fold payload. fold (frame_bytes (stream_id T2) (struct_meta T2) payload).
      rewrite Deserialize_frame by done.
      rewrite decide_False by (intros Hne; by apply Hne).
      by rewrite Hout.
    + intros f1 Hf1.
      assert (Hin : type_id f1 ∈ meta_ids (struct_meta T2)).
      { rewrite Hids. apply list_elem_of_further. by apply list_elem_of_fmap_2. }
      apply list_elem_of_fmap in Hin as (f2 & Hid & Hf2).
      exists f2. split; [done|]. split; [done|].
      destruct (list_elem_of_split _ _ Hf2) as (R1 & R2 & Hsplit).
      assert (Hlast : type_id f2 ∉ meta_ids R2).
      { unfold meta_ids in Hnd2. rewrite Hsplit, fmap_app, fmap_cons in Hnd2.
        apply NoDup_app in Hnd2 as (_ & _ & Hnd2).
        by apply NoDup_cons in Hnd2 as [? _]. }
      assert (Hg : Serializer_Get_Meta_Field_By_ID T1 (type_id f2) = Some f1)
        by (rewrite <- Hid; by apply Hget).
      rewrite Hsplit in Hout.
      pose proof (Hsize f1 f2 Hf1 Hf2 Hid) as Hsz.
      eapply Forall_forall in Hw2; [|exact Hf2]. unfold field_within in Hw2.
      unfold field_bytes. apply list_eq; intros j. rewrite <- Hsz.
      destruct (decide (j < Z.to_nat (size f1))).
      * rewrite !lookup_take_lt, !lookup_drop by done.
        rewrite (Deserialize_fields_last T1 payload Hdis R1 f2 R2 obj out f1)
          by (done || unfold in_field; lia).
        subst payload. rewrite lookup_app_l by lia. f_equal. lia.
      * by rewrite !lookup_take_ge by lia.
Qed.

(** C2 (as the code has it). For every received descriptor that
    [Deserialize] matches by id to a local descriptor, the number of bytes
    copied is the local descriptor's size, whatever size the received
    descriptor declares: the copy reads that many bytes of the frame from
    the received offset and writes them at the local offset, so the write
    stays inside the local field's extent and inside the output record; it
    is the smaller of the two sizes when the local size does not exceed the
    received one. *)
Theorem Deserialize_field_copies_local_size T buffer ptr d our obj out :
  Serializer_Get_Meta_Field_By_ID T (type_id d) = Some our →
  Deserialize_field T buffer ptr d obj = Some out →
  out = take (Z.to_nat (offset our)) obj ++
        take (Z.to_nat (size our)) (drop (ptr + Z.to_nat (offset d)) buffer) ++
        drop (Z.to_nat (offset our) + Z.to_nat (size our)) obj ∧
  length (take (Z.to_nat (size our)) (drop (ptr + Z.to_nat (offset d)) buffer))
    = Z.to_nat (size our) ∧
  Z.to_nat (offset our) + Z.to_nat (size our) ≤ length obj ∧
  ptr + Z.to_nat (offset d) + Z.to_nat (size our) ≤ length buffer ∧
  (∀ i, ¬ in_field our i → out !! i = obj !! i) ∧
  ((size our ≤ size d)%Z →
   Z.to_nat (size our) = Z.to_nat (size d) `min` Z.to_nat (size our)).
Proof.
  intros Hg Hc. unfold Deserialize_field in Hc. rewrite Hg in Hc.
  pose proof Hc as [[Ho Hb] Hout]%memcpy_Some.
  assert (Hk : length (take (Z.to_nat (size our))
                         (drop (ptr + Z.to_nat (offset d)) buffer))
               = Z.to_nat (size our))
    by (rewrite length_take, length_drop; lia).
  assert (Ht : length (take (Z.to_nat (offset our)) obj) = Z.to_nat (offset our))
    by (rewrite length_take; lia).
  split; [|split; [done|split; [done|split; [done|split]]]].
  - rewrite Hout. apply list_eq; intros i.
    destruct (decide (i < Z.to_nat (offset our)));
      [|destruct (decide (i < Z.to_nat (offset our) + Z.to_nat (size our)))].
    + rewrite list_lookup_inserts_lt, lookup_app_l, lookup_take_lt
        by (rewrite ?Ht; lia). done.
    + rewrite list_lookup_inserts, lookup_app_r, lookup_app_l
        by (rewrite ?Hk, ?Ht; lia).
      by rewrite Ht.
    + rewrite list_lookup_inserts_ge, !lookup_app_r, lookup_drop
        by (rewrite ?Hk, ?Ht; lia).
      f_equal. rewrite Hk, Ht. lia.
  - intros i Hi. by eapply memcpy_lookup_out.
  - lia.
Qed.

(** C8 (as the code has it). Building the descriptor table rejects
    nothing: [SERIALIZER_CREATE_META_IMPL] yields the descriptors of the
    enabled fields in their declared order, equal ids included; the only
    error values are [ERROR_NONE] and [ERROR_STREAM_ID_MISMATCH]; and
    [Deserialize], where it is defined, returns either the mismatch with the
    output record untouched or [ERROR_NONE]. *)
Theorem SERIALIZER_CREATE_META_IMPL_unchecked :
  (∀ struct_fields,
     SERIALIZER_CREATE_META_IMPL struct_fields =
     enabled_meta <$> filter is_enabled struct_fields) ∧
  (∀ e : Deserializer_Error_t,
     e = SERIALIZER_DESERIALIZER_ERROR_NONE ∨
     e = SERIALIZER_DESERIALIZER_ERROR_STREAM_ID_MISMATCH) ∧
  (∀ T buffer obj,
     Deserialize T buffer obj = None ∨
     Deserialize T buffer obj =
       Some (SERIALIZER_DESERIALIZER_ERROR_STREAM_ID_MISMATCH, obj) ∨
     ∃ out, Deserialize T buffer obj =
              Some (SERIALIZER_DESERIALIZER_ERROR_NONE, out)).
Proof.
  split; [|split].
  - intros struct_fields. unfold SERIALIZER_CREATE_META_IMPL.
    induction struct_fields as [|f fields IH]; [done|].
    cbn [flat_map]. rewrite IH, filter_cons.
    unfold SERIALIZER_META_FIELD, SERIALIZER_META_FIELD_ENABLE,
      SERIALIZER_META_FIELD_DISABLE, is_enabled, enabled_meta.
    by destruct (field_enable f).
  - intros []; auto.
  - intros T buffer obj. unfold Deserialize.
    destruct (load buffer 0 4) as [raw|]; [|by left].
    cbn [mbind option_bind]. case_decide; [by right; left|].
    destruct (load buffer 4 4) as [raw'|]; [|by left].
    cbn [mbind option_bind].
    destruct (Deserialize_loop _ _ _ _ _ _) as [out|]; [|by left].
    right; right. by exists out.
Qed.

(** * The example of [example.c] and the other instantiations *)

Ltac concrete :=
  repeat match goal with
         | |- _ ∧ _ => split
         | |- Forall _ _ => constructor
         | |- NoDup _ => apply (bool_decide_unpack _); vm_compute; exact I
         | |- _ ∉ _ => apply (bool_decide_unpack _); vm_compute; exact I
         | |- _ ∈ _ => apply (bool_decide_unpack _); vm_compute; exact I
         | |- True => exact I
         | |- @eq (option _) _ _ => vm_compute; reflexivity
         | |- @eq (list _) _ _ => vm_compute; reflexivity
         | |- (_ ≤ _)%Z => vm_compute; discriminate
         | |- (_ < _)%Z => vm_compute; reflexivity
         | |- _ ≤ _ => vm_compute; lia
         | |- _ ∨ _ => vm_compute; lia
         | |- @eq nat _ _ => vm_compute; reflexivity
         | |- @eq Z _ _ => vm_compute; reflexivity
         | |- _ => progress (unfold meta_in_range, field_within, fields_disjoint;
                             cbn [meta_disjoint struct_meta Stream1_Struct_t
                                  Stream1B_Struct_t Wide_Struct_t Narrow_Struct_t
                                  SERIALIZER_CREATE_META_IMPL flat_map app
                                  STREAM_1_FEILDS STREAM_1B_FEILDS WIDE_FEILDS
                                  NARROW_FEILDS SERIALIZER_META_FIELD
                                  SERIALIZER_META_FIELD_ENABLE
                                  SERIALIZER_META_FIELD_DISABLE field_enable])
         end.

(** The concrete scenario: the frame of [field1 = 42], [field3 = "Hello,
    World!"] on stream 1, and its decoding into a zeroed record. *)
Example example_c_frame :
  take (frame_length Stream1_Struct_t) stream1_frame =
  [x01; x00; x00; x00] ++ [x02; x00; x00; x00] ++
  ([x01; x00; x00; x00] ++ [x00; x00] ++ [x04; x00]) ++
  ([x03; x00; x00; x00] ++ [x04; x00] ++ [x14; x00]) ++
  ([x2a; x00; x00; x00] ++ hello_world ++ replicate 7 x00).
Proof. vm_compute. reflexivity. Qed.

Example example_c_test_serializer_deserializer :
  Serialize Stream1_Struct_t (replicate 256 x00) obj1 = Some stream1_frame ∧
  Deserialize Stream1_Struct_t stream1_frame (replicate 24 x00) =
    Some (SERIALIZER_DESERIALIZER_ERROR_NONE, obj1).
Proof. split; vm_compute; reflexivity. Qed.

(** With an id repeated in the meta table the order of the entries shows in
    the result, which is why order independence is stated for tables with
    unique ids. *)
Example order_shows_with_repeated_id :
  Deserialize Stream1_Struct_t
    (frame_bytes 1 [field1_meta; field1_again] obj1) (replicate 24 x00) ≠
  Deserialize Stream1_Struct_t
    (frame_bytes 1 [field1_again; field1_meta] obj1) (replicate 24 x00).
Proof. vm_compute. discriminate. Qed.

Lemma Serialize_wire_format_witness :
  Serialize Stream1_Struct_t (replicate 256 x00) obj1 =
  Some (little_endian 4 1 ++ little_endian 4 2 ++
        concat (wire_descriptor <$> struct_meta Stream1_Struct_t) ++
        obj1 ++ drop 48 (replicate 256 x00)).
Proof.
  apply (Serialize_wire_format Stream1_Struct_t (replicate 256 x00) obj1);
    concrete.
Defined.

Lemma Serialize_frame_effect_witness :
  length stream1_frame = 256 ∧
  take 48 stream1_frame = frame_bytes 1 (struct_meta Stream1_Struct_t) obj1 ∧
  drop 48 stream1_frame = drop 48 (replicate 256 x00).
Proof.
  destruct (Serialize_frame_effect Stream1_Struct_t (replicate 256 x00) obj1
              stream1_frame ltac:(concrete) ltac:(concrete) ltac:(concrete))
    as (H1 & H2 & _ & H3 & _).
  split; [exact H1|]. split; [exact H2|exact H3].
Defined.


Lemma Deserialize_missing_field_kept_witness :
  field_bytes field4_meta (obj1 ++ [x00; x00]) =
  field_bytes field4_meta (replicate 26 x00).
Proof.
  apply (Deserialize_missing_field_kept Stream1B_Struct_t 1
           (struct_meta Stream1_Struct_t) obj1 (replicate 26 x00)
           (obj1 ++ [x00; x00]) field4_meta); concrete.
Defined.

Lemma Deserialize_last_occurrence_wins_witness :
  field_bytes field1_meta ([x48; x65; x6c; x6c] ++ replicate 20 x00) =
  take 4 (drop 4 obj1).
Proof.
  apply (Deserialize_last_occurrence_wins Stream1_Struct_t 1
           [field1_meta] field1_again [] obj1 (replicate 24 x00)
           ([x48; x65; x6c; x6c] ++ replicate 20 x00) field1_meta); concrete.
Defined.

Lemma Deserialize_order_independent_witness :
  Deserialize Stream1_Struct_t
    (frame_bytes 1 [field3_meta; field1_meta] obj1) (replicate 24 x00) =
  Deserialize Stream1_Struct_t
    (frame_bytes 1 [field1_meta; field3_meta] obj1) (replicate 24 x00).
Proof.
  apply (Deserialize_order_independent Stream1_Struct_t 1
           [field1_meta; field3_meta] [field3_meta; field1_meta]);
    try apply perm_swap; concrete.
Defined.


Lemma Deserialize_field_copies_local_size_witness :
  narrow_obj = take 0 (replicate 4 x00) ++ take 4 (drop (24 + 0) narrow_frame) ++
               drop (0 + 4) (replicate 4 x00).
Proof.
  apply (Deserialize_field_copies_local_size Wide_Struct_t narrow_frame 24
           narrow_field1 wide_field1 (replicate 4 x00) narrow_obj); concrete.
Defined.

(** C2 fails as stated: the receiver's field 1 is four bytes wide, the
    sender declares two; four bytes are copied, the last two from beyond the
    extent the received descriptor declares, where a copy of
    [min(received.size, local.size)] bytes would leave them as they were. *)
Lemma Deserialize_copy_exceeds_min_size :
  Serialize Narrow_Struct_t (replicate 28 x00) narrow_obj = Some narrow_frame ∧
  load narrow_frame 8 sizeof_meta = Some (meta_bytes narrow_field1) ∧
  Serializer_Get_Meta_Field_By_ID Wide_Struct_t (type_id narrow_field1) =
    Some wide_field1 ∧
  Deserialize Wide_Struct_t narrow_frame (replicate 4 x00) =
    Some (SERIALIZER_DESERIALIZER_ERROR_NONE, [xaa; xbb; xcc; xdd]) ∧
  Deserialize_field Wide_Struct_t narrow_frame 24 narrow_field1 (replicate 4 x00) =
    Some [xaa; xbb; xcc; xdd] ∧
  copy_min_size narrow_frame 24 narrow_field1 wide_field1 (replicate 4 x00) =
    [xaa; xbb; x00; x00] ∧
  [xaa; xbb; xcc; xdd] ≠ [xaa; xbb; x00; x00].
Proof. repeat split; try (vm_compute; reflexivity). discriminate. Qed.

(** C8 fails as stated: a field list with two enabled fields of the same id
    yields a table with both descriptors, and [Serialize] and [Deserialize]
    run on it without any error. *)
Lemma duplicate_ids_accepted :
  SERIALIZER_CREATE_META_IMPL DUPLICATE_ID_FEILDS =
    [ {| type_id := 1; offset := 0; size := 4 |};
      {| type_id := 1; offset := 4; size := 4 |} ] ∧
  ¬ NoDup (meta_ids (struct_meta Duplicate_Struct_t)) ∧
  Serialize Duplicate_Struct_t (replicate 32 x00) duplicate_obj =
    Some (frame_bytes 9 (struct_meta Duplicate_Struct_t) duplicate_obj) ∧
  Deserialize Duplicate_Struct_t
    (frame_bytes 9 (struct_meta Duplicate_Struct_t) duplicate_obj)
    (replicate 8 x00) =
    Some (SERIALIZER_DESERIALIZER_ERROR_NONE,
          [x05; x06; x07; x08; x00; x00; x00; x00]).
Proof.
  split; [vm_compute; reflexivity|]. split; [|split; vm_compute; reflexivity].
  intros Hnd. vm_compute in Hnd.
  apply NoDup_cons in Hnd as [Hin _]. apply Hin, list_elem_of_here.
Qed.

Lemma Deserialize_unknown_field_skipped_witness :
  ∃ frame out,
    Serialize Stream1B_Struct_t (replicate 256 x00) obj1b = Some frame ∧
    Deserialize Stream1_Struct_t frame (replicate 24 x00) =
      Some (SERIALIZER_DESERIALIZER_ERROR_NONE, out) ∧
    ∀ f1, f1 ∈ struct_meta Stream1_Struct_t →
      ∃ f2, f2 ∈ struct_meta Stream1B_Struct_t ∧ type_id f2 = type_id f1 ∧
            field_bytes f1 out = field_bytes f2 obj1b.
Proof.
  apply (proj2 (proj2 (Deserialize_unknown_field_skipped Stream1_Struct_t))
           Stream1B_Struct_t field4_meta (replicate 256 x00) obj1b
           (replicate 24 x00)); concrete.
  - vm_compute. apply Permutation_sym, (Permutation_cons_append [1%Z; 3%Z]).
  - intros f1 f2 H1 H2. vm_compute in H1, H2.
    repeat (apply elem_of_cons in H1 as [->|H1]);
      try (by apply elem_of_nil in H1);
      repeat (apply elem_of_cons in H2 as [->|H2]);
      try (by apply elem_of_nil in H2);
      vm_compute; first [reflexivity | discriminate].
Defined.

(** * Further properties of the generated functions *)

(** ** The lookup by id *)

Lemma meta_scan_first id entries m :
  meta_scan id entries = Some m →
  type_id m = id ∧
  ∃ l1 l2, entries = l1 ++ m :: l2 ∧ id ∉ meta_ids l1.
Proof.
  unfold meta_ids. induction entries as [|e entries IH]; simpl; [done|].
  case_decide as He.
  - intros [= <-]. split; [done|]. exists [], entries. split; [done|].
    apply not_elem_of_nil.
  - intros [Hid (l1 & l2 & -> & Hl1)]%IH. split; [done|].
    exists (e :: l1), l2. split; [done|].
    rewrite fmap_cons, not_elem_of_cons. split; [congruence|done].
Qed.

Lemma meta_scan_None_iff id entries :
  meta_scan id entries = None ↔ id ∉ meta_ids entries.
Proof.
  unfold meta_ids. induction entries as [|e entries IH]; simpl.
  - split; [intros _; apply not_elem_of_nil|done].
  - rewrite not_elem_of_cons. case_decide as He.
    + split; [done|]. intros [Hne _]. by destruct Hne.
    + rewrite IH. split; [|tauto]. intros ?. split; [congruence|done].
Qed.

(** X1. A descriptor returned by the lookup carries the id asked for and is
    the first one of the table that does: no entry before it has that id. *)
Theorem Get_Meta_Field_first_match T id m :
  Serializer_Get_Meta_Field_By_ID T id = Some m →
  type_id m = id ∧
  ∃ l1 l2, struct_meta T = l1 ++ m :: l2 ∧ id ∉ meta_ids l1.
Proof.
  unfold Serializer_Get_Meta_Field_By_ID.
  set (k := Z.to_nat (wrap 32 (Z.of_nat (length (struct_meta T))))).
  intros [Hid (l1 & l2 & Hsplit & Hl1)]%meta_scan_first. split; [done|].
  exists l1, (l2 ++ drop k (struct_meta T)). split; [|done].
  rewrite <- (take_drop k (struct_meta T)) at 1.
  by rewrite Hsplit, <- app_assoc.
Qed.

(** X2. For a table of fewer than [2^32] entries the lookup returns [NULL]
    exactly for the ids that no descriptor of the table carries; for the
    empty table, for every id. *)
Theorem Get_Meta_Field_None_iff T id :
  (Z.of_nat (length (struct_meta T)) < 2 ^ 32)%Z →
  (Serializer_Get_Meta_Field_By_ID T id = None ↔
   id ∉ meta_ids (struct_meta T)).
Proof.
  intros Hlen. rewrite Get_Meta_Field_whole by done. apply meta_scan_None_iff.
Qed.

(** ** The descriptor table *)


(** ** [Serialize] and the capacity of the buffer *)

Lemma Serialize_Some_bounds T buffer obj out :
  Serialize T buffer obj = Some out →
  frame_length T ≤ length buffer ∧ sizeof_struct T ≤ length obj.
Proof.
  unfold Serialize, frame_length.
  destruct (memcpy buffer 0 _ 0 4) as [b1|] eqn:E1; [|done].
  cbn [mbind option_bind].
  destruct (memcpy b1 4 _ 0 4) as [b2|] eqn:E2; [|done].
  cbn [mbind option_bind].
  destruct (memcpy b2 8 _ 0 _) as [b3|] eqn:E3; [|done].
  cbn [mbind option_bind]. intros E4.
  pose proof (memcpy_length _ _ _ _ _ _ E1).
  pose proof (memcpy_length _ _ _ _ _ _ E2).
  pose proof (memcpy_length _ _ _ _ _ _ E3).
  apply memcpy_Some in E4 as [[? ?] _]. lia.
Qed.

(** X4. [Serialize] stays inside its objects exactly when the destination
    buffer holds [8 + 8 * field_count + record_size] bytes and the source
    object [sizeof(struct_name)] bytes; with a shorter buffer it writes past
    the end (no result in the model): the function checks no capacity. *)
Theorem Serialize_defined_iff T buffer obj :
  is_Some (Serialize T buffer obj) ↔
  frame_length T ≤ length buffer ∧ sizeof_struct T ≤ length obj.
Proof.
  split.
  - intros [out Hout]. by eapply Serialize_Some_bounds.
  - unfold frame_length. intros [Hb Ho]. unfold Serialize.
    destruct (memcpy_is_Some buffer 0
                (to_bytes 4 (wrap 32 (stream_id T))) 0 4) as [b1 E1];
      [lia|lengths|].
    rewrite E1. cbn [mbind option_bind].
    pose proof (memcpy_length _ _ _ _ _ _ E1) as L1.
    destruct (memcpy_is_Some b1 4
                (to_bytes 4 (wrap 32 (Z.of_nat (length (struct_meta T))))) 0 4)
      as [b2 E2]; [lia|lengths|].
    rewrite E2. cbn [mbind option_bind].
    pose proof (memcpy_length _ _ _ _ _ _ E2) as L2.
    destruct (memcpy_is_Some b2 8 (meta_array_bytes (struct_meta T)) 0
                (sizeof_meta * length (struct_meta T))) as [b3 E3];
      [lia|rewrite length_meta_array_bytes; lia|].
    rewrite E3. cbn [mbind option_bind].
    pose proof (memcpy_length _ _ _ _ _ _ E3) as L3.
    apply memcpy_is_Some; lia.
Qed.

(** X5. Serialising a second record into a buffer that already holds a
    frame of the same struct leaves the buffer as if the first call had not
    happened: nothing of the earlier frame remains. *)
Theorem Serialize_overwrites T buffer obj1 obj2 out1 :
  length obj1 = sizeof_struct T →
  length obj2 = sizeof_struct T →
  Serialize T buffer obj1 = Some out1 →
  Serialize T out1 obj2 = Serialize T buffer obj2.
Proof.
  intros H1 H2 Hs.
  destruct (Serialize_Some_bounds _ _ _ _ Hs) as [Hb _].
  assert (Hf : ∀ o, length o = sizeof_struct T →
            length (frame_bytes (stream_id T) (struct_meta T) o) =
            frame_length T).
  { intros o Ho. unfold frame_bytes, frame_length. lengths. }
  rewrite Serialize_bytes in Hs by done.
  assert (Ho : out1 = frame_bytes (stream_id T) (struct_meta T) obj1 ++
                      drop (frame_length T) buffer) by congruence.
  rewrite !Serialize_bytes; [|done..| |done].
  - subst out1. by rewrite drop_app_length' by (by rewrite Hf).
  - subst out1. rewrite length_app, Hf, length_drop by done. lia.
Qed.

(** ** [Deserialize] on an arbitrary buffer *)

Lemma load_Some src s n raw :
  load src s n = Some raw → s + n ≤ length src ∧ raw = take n (drop s src).
Proof. unfold load. case_decide; [|done]. by intros [= <-]. Qed.

Lemma Deserialize_loop_length T buffer objptr n : ∀ ptr obj out,
  Deserialize_loop T buffer objptr n ptr obj = Some out →
  length out = length obj.
Proof.
  induction n as [|n IH]; intros ptr obj out; cbn [Deserialize_loop].
  - by intros [= <-].
  - destruct (load buffer ptr sizeof_meta) as [raw|]; [|done].
    cbn [mbind option_bind].
    destruct (Deserialize_field T buffer objptr (meta_of_bytes raw) obj)
      as [obj1|] eqn:E; [|done].
    cbn [mbind option_bind]. intros ->%IH.
    by eapply Deserialize_field_length.
Qed.


Lemma Deserialize_loop_outside T buffer objptr n i : ∀ ptr obj out,
  Deserialize_loop T buffer objptr n ptr obj = Some out →
  ¬ covered (struct_meta T) i →
  out !! i = obj !! i.
Proof.
  induction n as [|n IH]; intros ptr obj out; cbn [Deserialize_loop].
  - by intros [= <-].
  - destruct (load buffer ptr sizeof_meta) as [raw|]; [|done].
    cbn [mbind option_bind].
    destruct (Deserialize_field T buffer objptr (meta_of_bytes raw) obj)
      as [obj1|] eqn:E; [|done].
    cbn [mbind option_bind]. intros Hc Hi. rewrite (IH _ _ _ Hc Hi).
    eapply Deserialize_field_outside; [done|].
    intros our [Hour _]%Get_Meta_Field_Some Hin. apply Hi.
    apply Exists_exists. eauto.
Qed.


(** X7. Whatever bytes the buffer holds and whichever value [Deserialize]
    returns, the output record keeps its length and every byte of it that
    lies in the extent of no local descriptor keeps its value: padding and
    undescribed bytes are never written. *)
Theorem Deserialize_writes_only_fields T buffer obj e out :
  Deserialize T buffer obj = Some (e, out) →
  length out = length obj ∧
  ∀ i, ¬ covered (struct_meta T) i → out !! i = obj !! i.
Proof.
  unfold Deserialize.
  destruct (load buffer 0 4) as [raw|]; [|done].
  cbn [mbind option_bind]. case_decide; [by intros [= _ <-]|].
  destruct (load buffer 4 4) as [raw'|]; [|done]. cbn [mbind option_bind].
  destruct (Deserialize_loop _ _ _ _ _ _) as [o|] eqn:El; [|done].
  cbn [mbind option_bind]. intros [= _ <-]. split.
  - by eapply Deserialize_loop_length.
  - intros i Hi. by eapply Deserialize_loop_outside.
Qed.

(** X8. [Deserialize] reports [ERROR_STREAM_ID_MISMATCH] only when the
    first four bytes of the buffer differ from the stream id, and the record
    it then returns is the one it was given. *)
Theorem Deserialize_MISMATCH_only_if T buffer obj out :
  Deserialize T buffer obj =
    Some (SERIALIZER_DESERIALIZER_ERROR_STREAM_ID_MISMATCH, out) →
  4 ≤ length buffer ∧ of_bytes (take 4 buffer) ≠ stream_id T ∧ out = obj.
Proof.
  unfold Deserialize.
  destruct (load buffer 0 4) as [raw|] eqn:E1; [|done].
  apply load_Some in E1 as [H4 ->]. rewrite drop_0.
  cbn [mbind option_bind]. case_decide as Hs.
  - intros [= <-]. split; [lia|done].
  - destruct (load buffer 4 4) as [raw'|]; [|done]. cbn [mbind option_bind].
    by destruct (Deserialize_loop _ _ _ _ _ _).
Qed.

(** ** When a decode stays inside its objects *)

Lemma Deserialize_field_defined_iff T payload d obj :
  is_Some (Deserialize_field T payload 0 d obj) ↔
  copy_in_bounds T (length payload) (length obj) d.
Proof.
  unfold Deserialize_field, copy_in_bounds.
  destruct (Serializer_Get_Meta_Field_By_ID T (type_id d)) as [our|].
  - unfold memcpy. case_decide as Hb.
    + split; [intros _; lia|by eexists].
    + split; [by intros [? ?]|]. intros ?. destruct Hb. lia.
  - split; [done|by eexists].
Qed.

Lemma Deserialize_fields_defined_iff T payload R : ∀ obj,
  is_Some (Deserialize_fields T payload R obj) ↔
  Forall (copy_in_bounds T (length payload) (length obj)) R.
Proof.
  induction R as [|d R IH]; intros obj; cbn [Deserialize_fields].
  - split; [by constructor|by eexists].
  - rewrite Forall_cons, <- Deserialize_field_defined_iff.
    destruct (Deserialize_field T payload 0 d obj) as [obj1|] eqn:E;
      cbn [mbind option_bind].
    + rewrite IH, (Deserialize_field_length _ _ _ _ _ _ E).
      split; [intros ?; split; [by eexists|done]|by intros [_ ?]].
    + split; [by intros [? ?]|by intros [[? ?] _]].
Qed.

(** X9. A frame on the expected stream decodes without leaving its objects
    exactly when, for every received descriptor whose id the local table
    knows, the local extent lies inside the output record and the local
    size, taken from the received offset, lies inside the payload.  The
    received size plays no part, and no check is made: otherwise the copy
    runs out of bounds (no result in the model). *)
Theorem Deserialize_defined_iff T table payload obj :
  (0 ≤ stream_id T < 2 ^ 32)%Z →
  (Z.of_nat (length table) < 2 ^ 32)%Z →
  Forall meta_in_range table →
  (is_Some (Deserialize T (frame_bytes (stream_id T) table payload) obj) ↔
   Forall (copy_in_bounds T (length payload) (length obj)) table).
Proof.
  intros Hsid Hlen Hr. rewrite Deserialize_frame by done.
  rewrite decide_False by (intros Hne; by apply Hne).
  rewrite <- Deserialize_fields_defined_iff.
  destruct (Deserialize_fields T payload table obj); cbn [mbind option_bind].
  - split; intros _; by eexists.
  - split; by intros [? ?].
Qed.

(** X10. A frame on the expected stream none of whose descriptors has an id
    the local table knows decodes to [ERROR_NONE] with the output record
    untouched, whatever offsets and sizes the descriptors declare and
    however short the payload is; so does a frame with an empty meta
    table. *)
Theorem Deserialize_all_unknown T table payload obj :
  (0 ≤ stream_id T < 2 ^ 32)%Z →
  (Z.of_nat (length table) < 2 ^ 32)%Z →
  Forall meta_in_range table →
  Forall (λ d, Serializer_Get_Meta_Field_By_ID T (type_id d) = None) table →
  Deserialize T (frame_bytes (stream_id T) table payload) obj =
  Some (SERIALIZER_DESERIALIZER_ERROR_NONE, obj).
Proof.
  intros Hsid Hlen Hr Hun. rewrite Deserialize_frame by done.
  rewrite decide_False by (intros Hne; by apply Hne).
  assert (Hf : Deserialize_fields T payload table obj = Some obj).
  { clear Hlen Hr. induction Hun as [|d R Hd _ IH]; [done|].
    cbn [Deserialize_fields]. unfold Deserialize_field at 1. by rewrite Hd. }
  by rewrite Hf.
Qed.

(** ** What a decode leaves of the record it is given *)

Lemma Deserialize_fields_written_or_kept T payload R : ∀ obj out i,
  Deserialize_fields T payload R obj = Some out →
  written T R i ∨ out !! i = obj !! i.
Proof.
  induction R as [|d R IH]; intros obj out i; cbn [Deserialize_fields].
  - intros [= <-]. by right.
  - destruct (Deserialize_field T payload 0 d obj) as [obj1|] eqn:E; [|done].
    cbn [mbind option_bind]. intros Hc.
    destruct (IH _ _ i Hc) as [(d' & our & Hd' & Hg & Hi)|Hk].
    { left. exists d', our. split; [by apply list_elem_of_further|done]. }
    rewrite Hk.
    destruct (Serializer_Get_Meta_Field_By_ID T (type_id d)) as [our|] eqn:Hg.
    + destruct (in_field_dec our i) as [Hi|Hi].
      * left. exists d, our. split; [apply list_elem_of_here|done].
      * right. eapply Deserialize_field_outside; [done|].
        intros our' Hour'. by simplify_eq.
    + right. unfold Deserialize_field in E. rewrite Hg in E. by simplify_eq.
Qed.

Lemma Deserialize_fields_agree T payload R : ∀ x y ox oy i,
  Deserialize_fields T payload R x = Some ox →
  Deserialize_fields T payload R y = Some oy →
  written T R i ∨ x !! i = y !! i →
  ox !! i = oy !! i.
Proof.
  induction R as [|d R IH]; intros x y ox oy i; cbn [Deserialize_fields].
  - intros [= <-] [= <-] [(d & our & []%elem_of_nil & _)|Hxy]. done.
  - destruct (Deserialize_field T payload 0 d x) as [x1|] eqn:Ex; [|done].
    destruct (Deserialize_field T payload 0 d y) as [y1|] eqn:Ey; [|done].
    cbn [mbind option_bind]. intros Hx Hy Hw.
    apply (IH x1 y1 ox oy i Hx Hy).
    assert (Hin : ∀ our,
      Serializer_Get_Meta_Field_By_ID T (type_id d) = Some our →
      in_field our i → x1 !! i = y1 !! i).
    { intros our Hg Hi.
      rewrite (Deserialize_field_inside _ _ _ _ _ _ _ _ Ex Hg Hi).
      by rewrite (Deserialize_field_inside _ _ _ _ _ _ _ _ Ey Hg Hi). }
    destruct Hw as [(d' & our & [->|Hd']%elem_of_cons & Hg & Hi)|Hxy].
    + right. by eapply Hin.
    + left. by exists d', our.
    + right.
      destruct (Serializer_Get_Meta_Field_By_ID T (type_id d)) as [our|] eqn:Hg.
      * destruct (in_field_dec our i) as [Hi|Hi]; [by eapply Hin|].
        rewrite (Deserialize_field_outside _ _ _ _ _ _ i Ex),
                (Deserialize_field_outside _ _ _ _ _ _ i Ey); [done|..];
          intros our' Hour'; by simplify_eq.
      * unfold Deserialize_field in Ex, Ey. rewrite Hg in Ex, Ey.
        by simplify_eq.
Qed.

Lemma Deserialize_fields_reuse T p1 p2 R obj o1 :
  Deserialize_fields T p1 R obj = Some o1 →
  Deserialize_fields T p2 R o1 = Deserialize_fields T p2 R obj.
Proof.
  intros H1.
  pose proof (Deserialize_fields_length _ _ _ _ _ H1) as Hlen.
  pose proof (Deserialize_fields_defined_iff T p2 R o1) as Hd1.
  pose proof (Deserialize_fields_defined_iff T p2 R obj) as Hd2.
  rewrite Hlen in Hd1.
  destruct (Deserialize_fields T p2 R o1) as [ox|] eqn:Ex;
  destruct (Deserialize_fields T p2 R obj) as [oy|] eqn:Ey.
  - f_equal. apply list_eq; intros i.
    eapply Deserialize_fields_agree; [exact Ex|exact Ey|].
    by eapply Deserialize_fields_written_or_kept.
  - assert (Hs : is_Some (@None (list byte))) by (apply Hd2, Hd1; by eexists).
    by destruct Hs.
  - assert (Hs : is_Some (@None (list byte))) by (apply Hd1, Hd2; by eexists).
    by destruct Hs.
  - done.
Qed.

(** X11. An output record that already holds the result of decoding a frame
    carries nothing over into the decoding of a further frame with the same
    meta table: decoding the second frame into it gives what decoding the
    second frame into the original record gives. *)
Theorem Deserialize_reused_record T table p1 p2 obj o1 :
  (0 ≤ stream_id T < 2 ^ 32)%Z →
  (Z.of_nat (length table) < 2 ^ 32)%Z →
  Forall meta_in_range table →
  Deserialize T (frame_bytes (stream_id T) table p1) obj =
    Some (SERIALIZER_DESERIALIZER_ERROR_NONE, o1) →
  Deserialize T (frame_bytes (stream_id T) table p2) o1 =
  Deserialize T (frame_bytes (stream_id T) table p2) obj.
Proof.
  intros Hsid Hlen Hr [_ H1]%Deserialize_frame_NONE; [|done..].
  rewrite !Deserialize_frame by done.
  case_decide; [by destruct H|].
  by rewrite (Deserialize_fields_reuse T p1 p2 table obj o1).
Qed.

(** X12. Decoding is idempotent: decoding a frame again into the record
    that its decoding produced returns [ERROR_NONE] and that same record. *)
Theorem Deserialize_idempotent T table payload obj o1 :
  (0 ≤ stream_id T < 2 ^ 32)%Z →
  (Z.of_nat (length table) < 2 ^ 32)%Z →
  Forall meta_in_range table →
  Deserialize T (frame_bytes (stream_id T) table payload) obj =
    Some (SERIALIZER_DESERIALIZER_ERROR_NONE, o1) →
  Deserialize T (frame_bytes (stream_id T) table payload) o1 =
    Some (SERIALIZER_DESERIALIZER_ERROR_NONE, o1).
Proof.
  intros Hsid Hlen Hr H1.
  pose proof H1 as [_ Hf]%Deserialize_frame_NONE; [|done..].
  rewrite Deserialize_frame by done.
  rewrite decide_False by (intros Hne; by apply Hne).
  by rewrite (Deserialize_fields_reuse T payload payload table obj o1), Hf.
Qed.

(** X13. The bytes a decode writes do not depend on what the output record
    held: two decodes of one frame into different records agree on every
    byte that lies in the local extent of a matched descriptor. *)
Theorem Deserialize_written_bytes T table payload x y ox oy i :
  (0 ≤ stream_id T < 2 ^ 32)%Z →
  (Z.of_nat (length table) < 2 ^ 32)%Z →
  Forall meta_in_range table →
  Deserialize T (frame_bytes (stream_id T) table payload) x =
    Some (SERIALIZER_DESERIALIZER_ERROR_NONE, ox) →
  Deserialize T (frame_bytes (stream_id T) table payload) y =
    Some (SERIALIZER_DESERIALIZER_ERROR_NONE, oy) →
  written T table i →
  ox !! i = oy !! i.
Proof.
  intros Hsid Hlen Hr [_ Hx]%Deserialize_frame_NONE
    [_ Hy]%Deserialize_frame_NONE Hw; [|done..].
  eapply Deserialize_fields_agree; [exact Hx|exact Hy|by left].
Qed.

(** ** Sender and receiver built from different field lists *)

(** X14. Schema drift.  A frame serialised with one struct and decoded with
    another on the same stream, both tables with unique ids, the receiver's
    members disjoint, and no receiver field wider than the sender's field of
    the same id: the decode returns [ERROR_NONE]; every receiver field whose
    id the sender describes receives the leading bytes of the sender's
    field, as many as the receiver's size, wherever either side places the
    field; every receiver field whose id the sender does not describe keeps
    the bytes the output record held. *)
Theorem Deserialize_across_structs Ts Tr buffer r obj :
  (0 ≤ stream_id Ts < 2 ^ 32)%Z →
  stream_id Ts = stream_id Tr →
  (Z.of_nat (length (struct_meta Ts)) < 2 ^ 32)%Z →
  (Z.of_nat (length (struct_meta Tr)) < 2 ^ 32)%Z →
  Forall meta_in_range (struct_meta Ts) →
  Forall (field_within (sizeof_struct Ts)) (struct_meta Ts) →
  Forall (field_within (sizeof_struct Tr)) (struct_meta Tr) →
  meta_disjoint (struct_meta Tr) →
  NoDup (meta_ids (struct_meta Tr)) →
  NoDup (meta_ids (struct_meta Ts)) →
  (∀ f g, f ∈ struct_meta Tr → g ∈ struct_meta Ts →
          type_id f = type_id g → (size f ≤ size g)%Z) →
  length r = sizeof_struct Ts →
  length obj = sizeof_struct Tr →
  frame_length Ts ≤ length buffer →
  ∃ frame out,
    Serialize Ts buffer r = Some frame ∧
    Deserialize Tr frame obj = Some (SERIALIZER_DESERIALIZER_ERROR_NONE, out) ∧
    (∀ f g, f ∈ struct_meta Tr → g ∈ struct_meta Ts →
            type_id f = type_id g →
            field_bytes f out = take (Z.to_nat (size f)) (field_bytes g r)) ∧
    (∀ f, f ∈ struct_meta Tr → type_id f ∉ meta_ids (struct_meta Ts) →
          field_bytes f out = field_bytes f obj).
Proof.
  intros Hsid Hsame Hlens Hlenr Hrs Hws Hwr Hdis Hndr Hnds Hsize Hrlen Hobj Hbuf.
  set (payload := r ++ drop (frame_length Ts) buffer).
  assert (Hget : ∀ f, f ∈ struct_meta Tr →
            Serializer_Get_Meta_Field_By_ID Tr (type_id f) = Some f)
    by (intros; by apply Get_Meta_Field_NoDup).
  destruct (Deserialize_fields_is_Some Tr payload (struct_meta Ts) obj)
    as [out Hout].
  { intros d our Hd [Hour Hid]%Get_Meta_Field_Some. split.
    - rewrite Hobj. by eapply Forall_forall in Hwr.
    - pose proof (Hsize our d Hour Hd Hid).
      eapply Forall_forall in Hws; [|exact Hd]. unfold field_within in Hws.
      subst payload. rewrite length_app. lia. }
  exists (frame_bytes (stream_id Ts) (struct_meta Ts) r ++
          drop (frame_length Ts) buffer), out.
  split; [by apply Serialize_bytes|]. split; [|split].
  - unfold frame_bytes at 1. rewrite <- !app_assoc.
    fold payload. fold (frame_bytes (stream_id Ts) (struct_meta Ts) payload).
    rewrite Deserialize_frame by done.
    rewrite decide_False by (intros Hne; by apply Hne).
    by rewrite Hout.
  - intros f g Hf Hg Hid.
    destruct (list_elem_of_split _ _ Hg) as (R1 & R2 & Hsplit).
    assert (Hlast : type_id g ∉ meta_ids R2).
    { unfold meta_ids in Hnds. rewrite Hsplit, fmap_app, fmap_cons in Hnds.
      apply NoDup_app in Hnds as (_ & _ & Hnds).
      by apply NoDup_cons in Hnds as [? _]. }
    assert (Hgf : Serializer_Get_Meta_Field_By_ID Tr (type_id g) = Some f)
      by (rewrite <- Hid; by apply Hget).
    rewrite Hsplit in Hout.
    pose proof (Hsize f g Hf Hg Hid) as Hsz.
    eapply Forall_forall in Hws; [|exact Hg]. unfold field_within in Hws.
    unfold field_bytes. rewrite take_take.
    replace (Z.to_nat (size f) `min` Z.to_nat (size g))
      with (Z.to_nat (size f)) by lia.
    apply list_eq; intros j.
    destruct (decide (j < Z.to_nat (size f))).
    + rewrite !lookup_take_lt, !lookup_drop by done.
      rewrite (Deserialize_fields_last Tr payload Hdis R1 g R2 obj out f)
        by (done || unfold in_field; lia).
      subst payload. rewrite lookup_app_l by lia. f_equal. lia.
    + by rewrite !lookup_take_ge by lia.
  - intros f Hf Hid. apply field_bytes_ext. intros i Hi.
    by eapply Deserialize_fields_keeps_field.
Qed.


(** ** [print_array] *)

Lemma Z_of_byte_inj b1 b2 : Z_of_byte b1 = Z_of_byte b2 → b1 = b2.
Proof.
  unfold Z_of_byte. intros H%(inj Z.of_N).
  pose proof (Byte.of_to_N b1) as H1. rewrite H, Byte.of_to_N in H1.
  congruence.
Qed.

Lemma hex_digit_inj a b :
  (0 ≤ a < 16)%Z → (0 ≤ b < 16)%Z → hex_digit a = hex_digit b → a = b.
Proof.
  intros Ha Hb.
  assert (Ea : (a = 0 ∨ a = 1 ∨ a = 2 ∨ a = 3 ∨ a = 4 ∨ a = 5 ∨ a = 6 ∨
                a = 7 ∨ a = 8 ∨ a = 9 ∨ a = 10 ∨ a = 11 ∨ a = 12 ∨ a = 13 ∨
                a = 14 ∨ a = 15)%Z) by lia.
  assert (Eb : (b = 0 ∨ b = 1 ∨ b = 2 ∨ b = 3 ∨ b = 4 ∨ b = 5 ∨ b = 6 ∨
                b = 7 ∨ b = 8 ∨ b = 9 ∨ b = 10 ∨ b = 11 ∨ b = 12 ∨ b = 13 ∨
                b = 14 ∨ b = 15)%Z) by lia.
  clear Ha Hb.
  repeat (destruct Ea as [->|Ea]); try subst a;
    repeat (destruct Eb as [->|Eb]); try subst b;
    cbn [hex_digit]; intros H; first [reflexivity | discriminate H].
Qed.

Lemma printf_02X_inj b1 b2 : printf_02X b1 = printf_02X b2 → b1 = b2.
Proof.
  unfold printf_02X. intros [= Hh Hl].
  assert (Hr : ∀ b, (0 ≤ Z_of_byte b < 256)%Z).
  { intros b. unfold Z_of_byte. pose proof (Byte.to_N_bounded b). lia. }
  pose proof (Hr b1). pose proof (Hr b2).
  apply hex_digit_inj in Hh;
    [|Z.to_euclidean_division_equations; lia..].
  apply hex_digit_inj in Hl;
    [|Z.to_euclidean_division_equations; lia..].
  apply Z_of_byte_inj. Z.to_euclidean_division_equations. lia.
Qed.

Lemma print_array_loop_Some data n : ∀ i out,
  print_array_loop data n i = Some out →
  i + n ≤ length data ∨ n = 0.
Proof.
  induction n as [|n IH]; intros i out; cbn [print_array_loop]; [by right|].
  destruct (data !! i) as [b|] eqn:Eb; [|done]. cbn [mbind option_bind].
  destruct (print_array_loop data n (S i)) as [rest|] eqn:Er; [|done].
  intros _. left. apply lookup_lt_Some in Eb.
  destruct (IH _ _ Er); lia.
Qed.

Lemma print_array_loop_length data n : ∀ i out,
  print_array_loop data n i = Some out → length out = 3 * n.
Proof.
  induction n as [|n IH]; intros i out; cbn [print_array_loop].
  - by intros [= <-].
  - destruct (data !! i) as [b|]; [|done]. cbn [mbind option_bind].
    destruct (print_array_loop data n (S i)) as [rest|] eqn:Er; [|done].
    cbn [mbind option_bind]. intros Ho.
    assert (out = printf_02X b ++ rest) as -> by congruence.
    rewrite length_app, (IH _ _ Er). cbn [printf_02X length]. lia.
Qed.

Lemma print_array_loop_inj d1 d2 n : ∀ i out,
  print_array_loop d1 n i = Some out →
  print_array_loop d2 n i = Some out →
  take n (drop i d1) = take n (drop i d2).
Proof.
  induction n as [|n IH]; intros i out; cbn [print_array_loop]; [done|].
  destruct (d1 !! i) as [b1|] eqn:E1; [|done].
  destruct (d2 !! i) as [b2|] eqn:E2; [|done]. cbn [mbind option_bind].
  destruct (print_array_loop d1 n (S i)) as [r1|] eqn:R1; [|done].
  destruct (print_array_loop d2 n (S i)) as [r2|] eqn:R2; [|done].
  cbn [mbind option_bind]. intros Ho1 Ho2.
  assert (Heq : printf_02X b1 ++ r1 = printf_02X b2 ++ r2) by congruence.
  apply app_inj_1 in Heq as [Hb ->]; [|done].
  rewrite <- Ho1 in Ho2. clear Ho1.
  apply printf_02X_inj in Hb as ->.
  rewrite (drop_S _ _ _ E1), (drop_S _ _ _ E2). cbn [take]. f_equal.
  by eapply IH.
Qed.

(** X16. [print_array] reads [size] bytes and so needs an array of at
    least [size] bytes; it writes three characters per byte and a newline;
    and the dump is lossless: two arrays printed to the same text have the
    same first [size] bytes. *)
Theorem print_array_lossless d1 d2 size out :
  print_array d1 size = Some out →
  print_array d2 size = Some out →
  size ≤ length d1 ∧
  length out = 3 * size + 1 ∧
  take size d1 = take size d2.
Proof.
  unfold print_array.
  destruct (print_array_loop d1 size 0) as [o1|] eqn:E1; [|done].
  destruct (print_array_loop d2 size 0) as [o2|] eqn:E2; [|done].
  cbn [mbind option_bind]. intros Ho1 Ho2.
  assert (Heq : o2 ++ [x0a] = o1 ++ [x0a]) by congruence.
  apply app_inj_2 in Heq as [-> _]; [|done].
  assert (out = o1 ++ [x0a]) as -> by congruence.
  split; [|split].
  - destruct (print_array_loop_Some _ _ _ _ E1); lia.
  - rewrite length_app, (print_array_loop_length _ _ _ _ E1). cbn. lia.
  - rewrite <- (drop_0 d1), <- (drop_0 d2). by eapply print_array_loop_inj.
Qed.

(** ** The received size *)

Lemma Deserialize_field_same_id_offset T payload d d' obj :
  type_id d = type_id d' → offset d = offset d' →
  Deserialize_field T payload 0 d obj = Deserialize_field T payload 0 d' obj.
Proof. intros Hi Ho. unfold Deserialize_field. by rewrite Hi, Ho. Qed.

(** X17. The size a received descriptor declares is never consulted: two
    frames whose meta tables agree entry by entry on id and offset, with the
    same payload, decode to the same result whatever sizes their
    descriptors declare. *)
Theorem Deserialize_ignores_received_size T table table' payload obj :
  (0 ≤ stream_id T < 2 ^ 32)%Z →
  (Z.of_nat (length table) < 2 ^ 32)%Z →
  Forall meta_in_range table →
  Forall meta_in_range table' →
  Forall2 (λ d d', type_id d = type_id d' ∧ offset d = offset d') table table' →
  Deserialize T (frame_bytes (stream_id T) table' payload) obj =
  Deserialize T (frame_bytes (stream_id T) table payload) obj.
Proof.
  intros Hsid Hlen Hr Hr' H2.
  assert (Hlen' : (Z.of_nat (length table') < 2 ^ 32)%Z)
    by (by rewrite <- (Forall2_length _ _ _ H2)).
  rewrite !Deserialize_frame by done. case_decide; [done|].
  assert (Hf : ∀ o, Deserialize_fields T payload table' o =
                    Deserialize_fields T payload table o).
  { clear Hlen Hlen' Hr Hr'.
    induction H2 as [|d d' R R' [Hi Ho] _ IH]; intros o; [done|].
    cbn [Deserialize_fields].
    rewrite (Deserialize_field_same_id_offset T payload d d' o Hi Ho).
    destruct (Deserialize_field T payload 0 d' o); [apply IH|done]. }
  by rewrite Hf.
Qed.

(** ** Disabled fields *)

Lemma elem_of_SERIALIZER_CREATE_META_IMPL m struct_fields :
  m ∈ SERIALIZER_CREATE_META_IMPL struct_fields ↔
  ∃ f, f ∈ struct_fields ∧ is_enabled f = true ∧ m = enabled_meta f.
Proof.
  unfold SERIALIZER_CREATE_META_IMPL.
  induction struct_fields as [|f fields IH]; cbn [flat_map].
  - split; [by intros ?%elem_of_nil|by intros (f & ?%elem_of_nil & _)].
  - rewrite elem_of_app, IH.
    unfold SERIALIZER_META_FIELD, SERIALIZER_META_FIELD_ENABLE,
      SERIALIZER_META_FIELD_DISABLE, is_enabled, enabled_meta.
    split.
    + intros [Hm|(g & Hg & He & Hm)].
      * destruct (field_enable f) eqn:Ef; [|by apply elem_of_nil in Hm].
        apply list_elem_of_singleton in Hm. exists f.
        split; [apply list_elem_of_here|]. by rewrite Ef.
      * exists g. split; [by apply list_elem_of_further|done].
    + intros (g & [->|Hg]%elem_of_cons & He & Hm).
      * left. destruct (field_enable f); [|done].
        by apply list_elem_of_singleton.
      * right. by exists g.
Qed.

(** X18. For a struct whose table is made by [SERIALIZER_CREATE_META_IMPL]
    from fewer than [2^32] fields, the lookup knows an id exactly when an
    enabled field of the list declares it (as a [uint32_t]); the id of a
    field declared [DISABLE] is unknown unless an enabled field shares it. *)
Theorem Get_Meta_Field_enabled_ids struct_fields sz sid id :
  (Z.of_nat (length struct_fields) < 2 ^ 32)%Z →
  (is_Some (Serializer_Get_Meta_Field_By_ID
              {| struct_meta := SERIALIZER_CREATE_META_IMPL struct_fields;
                 sizeof_struct := sz; stream_id := sid |} id) ↔
   ∃ f, f ∈ struct_fields ∧ is_enabled f = true ∧ wrap 32 (field_id f) = id).
Proof.
  intros Hlen.
  set (T := {| struct_meta := SERIALIZER_CREATE_META_IMPL struct_fields;
               sizeof_struct := sz; stream_id := sid |}).
  assert (Hle : length (SERIALIZER_CREATE_META_IMPL struct_fields) ≤
                length struct_fields).
  { unfold SERIALIZER_CREATE_META_IMPL. clear.
    induction struct_fields as [|f fields IH]; [done|].
    cbn [flat_map]. rewrite length_app.
    assert (length (SERIALIZER_META_FIELD f) ≤ 1).
    { unfold SERIALIZER_META_FIELD, SERIALIZER_META_FIELD_ENABLE,
        SERIALIZER_META_FIELD_DISABLE.
      destruct (field_enable f); cbn [length]; lia. }
    cbn [length]. lia. }
  rewrite Get_Meta_Field_whole by (cbn [T struct_meta]; lia).
  cbn [T struct_meta]. split.
  - intros [m [Hin Hid]%meta_scan_Some].
    apply elem_of_SERIALIZER_CREATE_META_IMPL in Hin as (f & Hf & He & ->).
    by exists f.
  - intros (f & Hf & He & Hid).
    destruct (meta_scan id (SERIALIZER_CREATE_META_IMPL struct_fields))
      as [m|] eqn:Es; [by eexists|].
    apply meta_scan_None_iff in Es. destruct Es.
    apply list_elem_of_fmap. exists (enabled_meta f). split; [done|].
    apply elem_of_SERIALIZER_CREATE_META_IMPL. by exists f.
Qed.

(** ** Instances of the further properties *)

Ltac evaluated :=
  repeat match goal with
         | |- _ ∧ _ => split
         | |- True => exact I
         | |- Forall _ ?l =>
             let l' := eval vm_compute in l in
             change l with l'; repeat constructor
         | |- meta_disjoint ?l =>
             let l' := eval vm_compute in l in
             change l with l'; cbn [meta_disjoint]
         | |- NoDup _ => apply (bool_decide_unpack _); vm_compute; exact I
         | |- _ ∉ _ => apply (bool_decide_unpack _); vm_compute; exact I
         | |- _ ∈ _ => apply (bool_decide_unpack _); vm_compute; exact I
         | |- meta_in_range _ => unfold meta_in_range
         | |- field_within _ _ => unfold field_within; vm_compute; lia
         | |- fields_disjoint _ _ => unfold fields_disjoint; vm_compute; lia
         | |- in_field _ _ => unfold in_field; vm_compute; lia
         | |- @eq (option _) _ _ => vm_compute; reflexivity
         | |- @eq (list _) _ _ => vm_compute; reflexivity
         | |- @eq nat _ _ => vm_compute; reflexivity
         | |- @eq Z _ _ => vm_compute; reflexivity
         | |- (_ ≤ _)%Z => vm_compute; discriminate
         | |- (_ < _)%Z => vm_compute; reflexivity
         | |- _ ≤ _ => vm_compute; lia
         | |- _ ≠ _ => vm_compute; discriminate
         end.

Lemma Get_Meta_Field_first_match_witness :
  type_id field1_meta = 1%Z ∧
  ∃ l1 l2, struct_meta Duplicate_Struct_t = l1 ++ field1_meta :: l2 ∧
           1%Z ∉ meta_ids l1.
Proof.
  apply (Get_Meta_Field_first_match Duplicate_Struct_t 1 field1_meta).
  evaluated.
Defined.

Lemma Get_Meta_Field_None_iff_witness :
  Serializer_Get_Meta_Field_By_ID Stream1_Struct_t 2 = None ↔
  2%Z ∉ meta_ids (struct_meta Stream1_Struct_t).
Proof. apply (Get_Meta_Field_None_iff Stream1_Struct_t 2). evaluated. Defined.

Lemma Serialize_overwrites_witness :
  Serialize Stream1_Struct_t stream1_frame (replicate 24 xff) =
  Serialize Stream1_Struct_t (replicate 256 x00) (replicate 24 xff).
Proof.
  apply (Serialize_overwrites Stream1_Struct_t (replicate 256 x00) obj1
           (replicate 24 xff) stream1_frame); evaluated.
Defined.


Lemma Deserialize_writes_only_fields_witness :
  length [x01; x00; x00; x00; x02; x03; x04; x05] = length (replicate 8 x00) ∧
  ∀ i, ¬ covered (struct_meta Padded_Struct_t) i →
       [x01; x00; x00; x00; x02; x03; x04; x05] !! i = replicate 8 x00 !! i.
Proof.
  apply (Deserialize_writes_only_fields Padded_Struct_t
           (frame_bytes 5 (struct_meta Padded_Struct_t) padded_obj)
           (replicate 8 x00) SERIALIZER_DESERIALIZER_ERROR_NONE).
  evaluated.
Defined.

Lemma Deserialize_MISMATCH_only_if_witness :
  4 ≤ length stream1_frame_corrupted ∧
  of_bytes (take 4 stream1_frame_corrupted) ≠ stream_id Stream1_Struct_t ∧
  replicate 24 x00 = replicate 24 x00.
Proof.
  apply (Deserialize_MISMATCH_only_if Stream1_Struct_t stream1_frame_corrupted
           (replicate 24 x00) (replicate 24 x00)).
  evaluated.
Defined.

Lemma Deserialize_defined_iff_witness :
  is_Some (Deserialize Wide_Struct_t
             (frame_bytes (stream_id Wide_Struct_t)
                (struct_meta Narrow_Struct_t) narrow_obj) (replicate 4 x00)) ↔
  Forall (copy_in_bounds Wide_Struct_t (length narrow_obj)
            (length (replicate 4 x00))) (struct_meta Narrow_Struct_t).
Proof.
  apply (Deserialize_defined_iff Wide_Struct_t (struct_meta Narrow_Struct_t)
           narrow_obj (replicate 4 x00)); evaluated.
Defined.

Lemma Deserialize_all_unknown_witness :
  Deserialize Wide_Struct_t
    (frame_bytes (stream_id Wide_Struct_t) [field3_meta; field4_meta] [])
    (replicate 4 x00) =
  Some (SERIALIZER_DESERIALIZER_ERROR_NONE, replicate 4 x00).
Proof.
  apply (Deserialize_all_unknown Wide_Struct_t [field3_meta; field4_meta] []
           (replicate 4 x00)); evaluated.
Defined.

Lemma Deserialize_reused_record_witness :
  Deserialize Stream1_Struct_t
    (frame_bytes (stream_id Stream1_Struct_t) (struct_meta Stream1_Struct_t)
       (replicate 24 xff)) obj1 =
  Deserialize Stream1_Struct_t
    (frame_bytes (stream_id Stream1_Struct_t) (struct_meta Stream1_Struct_t)
       (replicate 24 xff)) (replicate 24 x00).
Proof.
  apply (Deserialize_reused_record Stream1_Struct_t
           (struct_meta Stream1_Struct_t) obj1 (replicate 24 xff)
           (replicate 24 x00) obj1); evaluated.
Defined.

Lemma Deserialize_idempotent_witness :
  Deserialize Stream1_Struct_t
    (frame_bytes (stream_id Stream1_Struct_t) (struct_meta Stream1_Struct_t)
       obj1) obj1 =
  Some (SERIALIZER_DESERIALIZER_ERROR_NONE, obj1).
Proof.
  apply (Deserialize_idempotent Stream1_Struct_t
           (struct_meta Stream1_Struct_t) obj1 (replicate 24 x00) obj1);
    evaluated.
Defined.

Lemma Deserialize_written_bytes_witness :
  [x01; x00; x00; x00; x02; x03; x04; x05] !! 4 =
  [x01; xff; xff; xff; x02; x03; x04; x05] !! 4.
Proof.
  apply (Deserialize_written_bytes Padded_Struct_t
           (struct_meta Padded_Struct_t) padded_obj (replicate 8 x00)
           (replicate 8 xff) [x01; x00; x00; x00; x02; x03; x04; x05]
           [x01; xff; xff; xff; x02; x03; x04; x05] 4); evaluated.
  exists {| type_id := 2; offset := 4; size := 4 |},
         {| type_id := 2; offset := 4; size := 4 |}.
  evaluated.
Defined.

Lemma Deserialize_across_structs_witness :
  ∃ frame out,
    Serialize Wide_Struct_t (replicate 32 x00) narrow_obj = Some frame ∧
    Deserialize Narrow_Struct_t frame (replicate 4 x00) =
      Some (SERIALIZER_DESERIALIZER_ERROR_NONE, out) ∧
    (∀ f g, f ∈ struct_meta Narrow_Struct_t → g ∈ struct_meta Wide_Struct_t →
            type_id f = type_id g →
            field_bytes f out = take (Z.to_nat (size f)) (field_bytes g narrow_obj)) ∧
    (∀ f, f ∈ struct_meta Narrow_Struct_t →
          type_id f ∉ meta_ids (struct_meta Wide_Struct_t) →
          field_bytes f out = field_bytes f (replicate 4 x00)).
Proof.
  apply (Deserialize_across_structs Wide_Struct_t Narrow_Struct_t
           (replicate 32 x00) narrow_obj (replicate 4 x00)); evaluated.
  intros f g Hf Hg. vm_compute in Hf, Hg.
  repeat (apply elem_of_cons in Hf as [->|Hf]);
    try (by apply elem_of_nil in Hf);
    repeat (apply elem_of_cons in Hg as [->|Hg]);
    try (by apply elem_of_nil in Hg);
    vm_compute; intros; discriminate.
Defined.


Lemma print_array_lossless_witness :
  2 ≤ length [x2a; xff] ∧
  length [x32; x41; x20; x46; x46; x20; x0a] = 3 * 2 + 1 ∧
  take 2 [x2a; xff] = take 2 [x2a; xff; x00].
Proof.
  apply (print_array_lossless [x2a; xff] [x2a; xff; x00] 2
           [x32; x41; x20; x46; x46; x20; x0a]); evaluated.
Defined.

Lemma Deserialize_ignores_received_size_witness :
  Deserialize Stream1_Struct_t
    (frame_bytes (stream_id Stream1_Struct_t) [field1_meta; field3_meta] obj1)
    (replicate 24 x00) =
  Deserialize Stream1_Struct_t
    (frame_bytes (stream_id Stream1_Struct_t)
       [narrow_field1; {| type_id := 3; offset := 4; size := 0 |}] obj1)
    (replicate 24 x00).
Proof.
  apply (Deserialize_ignores_received_size Stream1_Struct_t
           [narrow_field1; {| type_id := 3; offset := 4; size := 0 |}]
           [field1_meta; field3_meta] obj1 (replicate 24 x00)); evaluated.
  repeat constructor.
Defined.

Lemma Get_Meta_Field_enabled_ids_witness :
  is_Some (Serializer_Get_Meta_Field_By_ID Stream1_Struct_t 2) ↔
  ∃ f, f ∈ STREAM_1_FEILDS ∧ is_enabled f = true ∧ wrap 32 (field_id f) = 2%Z.
Proof.
  apply (Get_Meta_Field_enabled_ids STREAM_1_FEILDS 24 1 2). evaluated.
Defined.
